(** * train_android.py: padded-batch collation, validation loop and
      best-checkpoint policy

    Shallow embedding of [src/py_scripts/train_android.py]:
    - [collate_feat]  (lines 36-52),
    - [test_eval]     (lines 55-75),
    - the epoch loop of [main] (lines 131-167).

    Conventions.
    - Tensor entries are floating-point numbers in the program.  They are
      idealised here as exact rationals ([Q]); rounding, infinities and NaN
      are outside the model.  Every statement below is either about where
      entries are moved to (collation) or about which exact expression is
      computed (evaluation, checkpoint test).
    - A Python exception is a value [Raise e] of the [result] type.
    - A 2-D tensor keeps its trailing dimension explicitly, because a
      sequence of zero rows still has a feature dimension
      ([torch.zeros(0, D)]). *)

From Stdlib Require Import QArith Qabs Qminmax.
From stdpp Require Import base list sorting.

Local Open Scope nat_scope.

(** ** Exceptions *)

Inductive pyerr : Type :=
  | StopIteration   (* raised by [next] on an exhausted iterator *)
  | RuntimeError    (* raised by torch on empty or incompatible inputs *)
  | ValueError.     (* raised when a ragged nested list is made a tensor *)

Inductive result (A : Type) : Type :=
  | Ok (a : A)
  | Raise (e : pyerr).
Arguments Ok {A} a.
Arguments Raise {A} e.

#[global] Instance result_ret : MRet result := fun A a => Ok a.
#[global] Instance result_bind : MBind result := fun A B k r =>
  match r with
  | Ok a => k a
  | Raise e => Raise e
  end.

(** ** Tensors *)

(** A tensor of shape [(length t_rows, t_dim)]. *)
Record Tensor2 : Type := mkT2 {
  t_rows : list (list Q);
  t_dim  : nat
}.

Definition shape0 (t : Tensor2) : nat := length (t_rows t).

(** Every tensor of the program is rectangular; the record does not force
    it, so the statements that need it say so. *)
Definition rect2 (t : Tensor2) : Prop :=
  Forall (fun r => length r = t_dim t) (t_rows t).

(** A tensor of shape [size3]; [data3] is indexed outermost-first. *)
Record Tensor3 : Type := mkT3 {
  data3 : list (list (list Q));
  size3 : nat * nat * nat
}.

(** ** Samples and batches *)

(** What [Android_GNSS_Dataset.__getitem__] yields: a dict with these keys. *)
Record Sample : Type := mkSample {
  features        : Tensor2;   (* [L_i, D] *)
  true_correction : list Q;    (* [C] *)
  guess           : list Q     (* [C] *)
}.

(** The dict [retval] of [collate_feat]. *)
Record Batch : Type := mkBatch {
  b_features        : Tensor3;  (* [L_max, N, D] *)
  b_true_correction : Tensor2;  (* [N, C] *)
  b_guess           : Tensor2   (* [N, C] *)
}.

Abbreviation Mask := (list (list bool)).

(** ** [sorted(batch, key=..., reverse=True)]

    Python's [sorted] is stable, also with [reverse=True]: elements with
    equal keys keep their input order.  The stable descending order of a
    list is unique, so it is modelled by the insertion that places an
    element before the first one whose key is not strictly larger. *)

Section Sorted.
Context {A : Type} (key : A -> nat).

Fixpoint insert_desc (x : A) (l : list A) : list A :=
  match l with
  | [] => [x]
  | y :: l' => if key x <? key y then y :: insert_desc x l' else x :: l
  end.

Definition sorted_desc (l : list A) : list A :=
  foldr insert_desc [] l.

(** Keys never increase from [x] to [y]. *)
Definition desc (x y : A) : Prop := key y <= key x.

(** The elements of key [k], in the order of [l]. *)
Definition with_key (k : nat) (l : list A) : list A :=
  filter (fun x => key x = k) l.
End Sorted.

(** ** [torch.nn.utils.rnn.pad_sequence] (default [batch_first=False],
    [padding_value=0])

    The output has shape [(max_len, N) + sequences[0].shape[1:]]; slot
    [out[l, i]] is row [l] of sequence [i] when it has one and a zero row
    otherwise.  An empty list of sequences is an error.  Sequences whose
    trailing dimension differs from the first one's cannot be copied into
    the output; torch raises for them (sizes that broadcast are not part of
    this model: the dataset produces one feature dimension). *)

Definition max_len (seqs : list Tensor2) : nat :=
  foldr (fun t m => Nat.max (shape0 t) m) 0 seqs.

Definition zero_row (d : nat) : list Q := replicate d 0%Q.

Definition pad_sequence (sequences : list Tensor2) : result Tensor3 :=
  match sequences with
  | [] => Raise RuntimeError
  | s0 :: _ =>
      let d := t_dim s0 in
      let lmax := max_len sequences in
      if forallb (fun t => t_dim t =? d) sequences
      then Ok {| data3 := (fun l => (fun t => nth l (t_rows t) (zero_row d))
                                      <$> sequences) <$> seq 0 lmax;
                 size3 := (lmax, length sequences, d) |}
      else Raise RuntimeError
  end.

(** ** [torch.Tensor([v_0, ..., v_{N-1}])] for a list of vectors: shape
    [N, C], an error when the vectors differ in length. *)

Definition stack (vs : list (list Q)) : result Tensor2 :=
  match vs with
  | [] => Ok {| t_rows := []; t_dim := 0 |}
  | v0 :: _ =>
      if forallb (fun v => length v =? length v0) vs
      then Ok {| t_rows := vs; t_dim := length v0 |}
      else Raise ValueError
  end.

(** ** The mask array *)

(** [np.zeros((n, l))] *)
Definition np_zeros (n l : nat) : list (list Q) := replicate n (replicate l 0%Q).

(** [row[k:] = 1] *)
Definition set_from (k : nat) (row : list Q) : list Q :=
  take k row ++ replicate (length row - k) 1%Q.

(** [pad_mask[i, k:] = 1].  The row index is always in range in
    [collate_feat] (numpy would raise otherwise; [alter] leaves the array
    as it is). *)
Definition assign_tail (i k : nat) (m : list (list Q)) : list (list Q) :=
  alter (set_from k) i m.

(** [enumerate(l)] *)
Definition enumerate {A : Type} (l : list A) : list (nat * A) :=
  imap (fun i x => (i, x)) l.

(** [torch.Tensor(pad_mask).bool()]: non-zero entries are [True]. *)
Definition to_bool (m : list (list Q)) : Mask :=
  (fun row : list Q => (fun v => negb (Qeq_bool v 0)) <$> row) <$> m.

(** ** [collate_feat] (lines 36-52) *)

Definition seq_len (x : Sample) : nat := shape0 (features x).

Definition collate_feat (batch : list Sample) : result (Batch * Mask) :=
  let sorted_batch := sorted_desc seq_len batch in
  let feats := features <$> sorted_batch in
  features_padded ← pad_sequence feats;
  let '(L, N, dim) := size3 features_padded in
  let pad_mask := np_zeros N L in
  let pad_mask :=
    fold_left (fun m ix => assign_tail (fst ix) (shape0 (snd ix)) m)
              (enumerate feats) pad_mask in
  let pad_mask := to_bool pad_mask in
  correction ← stack (true_correction <$> sorted_batch);
  guess_t ← stack (guess <$> sorted_batch);
  let retval := {| b_features := features_padded;
                   b_true_correction := correction;
                   b_guess := guess_t |} in
  Ok (retval, pad_mask).

(** ** [collate_feat] on the object store

    A call of [collate_feat] receives a reference to the list object
    [batch], which the caller keeps: a second call on the same reference
    sees whatever the first call left in the object.  The store holds the
    list objects and the numpy arrays of the program; a new object gets the
    next free address.  Line 37 builds a new list with [sorted] (it does
    not sort [batch] in place), lines 41-43 create the array [pad_mask]
    and write to it in place, and the samples are only read (lines 37, 38,
    45, 46). *)

Record Store : Type := mkStore {
  st_lists  : list (list Sample);
  st_arrays : list (list (list Q))
}.

Definition new_list (items : list Sample) (h : Store) : nat * Store :=
  (length (st_lists h),
   {| st_lists := st_lists h ++ [items]; st_arrays := st_arrays h |}).

Definition new_array (a : list (list Q)) (h : Store) : nat * Store :=
  (length (st_arrays h),
   {| st_lists := st_lists h; st_arrays := st_arrays h ++ [a] |}).

(** [arr[i, k:] = 1], in place on the array object at address [arr]. *)
Definition assign_tail_at (arr i k : nat) (h : Store) : Store :=
  {| st_lists := st_lists h;
     st_arrays := alter (assign_tail i k) arr (st_arrays h) |}.

(** Lines 36-52 with [batch] the address of the list object.  (An address
    without object does not occur; the call is given an existing list.) *)
Definition collate_feat_store (batch : nat) (h : Store)
  : Store * result (Batch * Mask) :=
  match st_lists h !! batch with
  | None => (h, Raise RuntimeError)
  | Some items =>
      let '(sorted_batch, h) := new_list (sorted_desc seq_len items) h in
      let sorted_items := default [] (st_lists h !! sorted_batch) in
      let feats := features <$> sorted_items in
      match pad_sequence feats with
      | Raise e => (h, Raise e)
      | Ok features_padded =>
          let '(L, N, dim) := size3 features_padded in
          let '(pad_mask, h) := new_array (np_zeros N L) h in
          let h :=
            fold_left (fun h ix =>
                         assign_tail_at pad_mask (fst ix) (shape0 (snd ix)) h)
                      (enumerate feats) h in
          let mask := to_bool (default [] (st_arrays h !! pad_mask)) in
          match stack (true_correction <$> sorted_items) with
          | Raise e => (h, Raise e)
          | Ok correction =>
              match stack (guess <$> sorted_items) with
              | Raise e => (h, Raise e)
              | Ok guess_t =>
                  (h, Ok ({| b_features := features_padded;
                             b_true_correction := correction;
                             b_guess := guess_t |}, mask))
              end
          end
      end
  end.

(** ** The validation loader

    [DataLoader(val_set, batch_size=1, shuffle=False, num_workers=0,
    collate_fn=collate_feat)] draws the samples in order, one per batch, and
    passes each drawn list through [collate_feat] when the iterator is
    advanced.  A loader is modelled by the lists it draws; [iter] starts a
    fresh pass and [next] collates the next drawn list or raises
    [StopIteration]. *)

Abbreviation Loader := (list (list Sample)).
Abbreviation Generator := (list (list Sample)).

Definition DataLoader1 (dataset : list Sample) : Loader :=
  (fun s => [s]) <$> dataset.

Definition iter (loader : Loader) : Generator := loader.

Definition next (g : Generator) : result ((Batch * Mask) * Generator) :=
  match g with
  | [] => Raise StopIteration
  | drawn :: g' => b ← collate_feat drawn; Ok (b, g')
  end.

(** ** Array operations of [test_eval] *)

Definition same_shape (a b : Tensor2) : bool :=
  (shape0 a =? shape0 b) && (t_dim a =? t_dim b).

(** [a - b] for tensors of one shape.  (torch also subtracts shapes that
    broadcast; both networks return the shape of the target, and any other
    pair of shapes is an error here.) *)
Definition tsub (a b : Tensor2) : result Tensor2 :=
  if same_shape a b
  then Ok {| t_rows := zip_with (zip_with Qminus) (t_rows a) (t_rows b);
             t_dim := t_dim a |}
  else Raise RuntimeError.

(** [np.array(l)] for a list of 2-D arrays: they must share one shape.
    (The empty list is not reached: [test_eval] stacks 100 arrays.) *)
Definition np_array (l : list Tensor2) : result Tensor3 :=
  match l with
  | [] => Raise ValueError
  | t0 :: _ =>
      if forallb (same_shape t0) l
      then Ok {| data3 := t_rows <$> l;
                 size3 := (length l, shape0 t0, t_dim t0) |}
      else Raise ValueError
  end.

(** [np.abs] *)
Definition np_abs (t : Tensor3) : Tensor3 :=
  {| data3 := (fun m : list (list Q) => (fun r : list Q => Qabs <$> r) <$> m)
              <$> data3 t;
     size3 := size3 t |}.

Definition mat_add (a b : list (list Q)) : list (list Q) :=
  zip_with (zip_with Qplus) a b.

(** [np.add.reduce(_, axis=0)]: the slices along the first axis are added
    up in order, starting from the first one. *)
Definition sum_axis0 (d : list (list (list Q))) : list (list Q) :=
  match d with
  | [] => []
  | m :: ms => fold_left mat_add ms m
  end.

(** [np.mean(_, axis=0)]: the sum along the first axis divided by its
    length. *)
Definition np_mean_axis0 (t : Tensor3) : Tensor2 :=
  let '(n, _, c) := size3 t in
  {| t_rows := (fun r : list Q => (fun v => v / inject_Z (Z.of_nat n))%Q <$> r)
                <$> sum_axis0 (data3 t);
     t_dim := c |}.

Definition Qsum (l : list Q) : Q := fold_left Qplus l 0%Q.

(** [np.sum] of a 2-D array. *)
Definition np_sum (t : Tensor2) : Q := Qsum (concat (t_rows t)).

(** ** [test_eval] (lines 55-75)

    [net] is the forward pass of the model in evaluation mode and
    [loss_func] the loss; both are collaborators of the script. *)

Record EvalState : Type := mkEval {
  generator : Generator;
  stats_val : list Tensor2;
  loss_val  : Q
}.

Section TestEval.
Variable val_loader : Loader.
Variable net : Tensor3 -> Mask -> Tensor2.
Variable loss_func : Tensor2 -> Tensor2 -> Q.

(** Lines 61-65: the [try]/[except StopIteration] around [next]. *)
Definition next_or_restart (g : Generator)
  : result ((Batch * Mask) * Generator) :=
  match next g with
  | Raise StopIteration => next (iter val_loader)
  | r => r
  end.

(** Lines 61-74: one iteration of the loop. *)
Definition eval_body (st : EvalState) : result EvalState :=
  '(sample_batched, g) ← next_or_restart (generator st);
  let '(_sample_batched, pad_mask) := sample_batched in
  let x := b_features _sample_batched in
  let y := b_true_correction _sample_batched in
  let pred_correction := net x pad_mask in
  let loss := loss_func pred_correction y in
  diff ← tsub y pred_correction;
  Ok {| generator := g;
        stats_val := stats_val st ++ [diff];
        loss_val := (loss_val st + loss)%Q |}.

(** [n] iterations of the loop. *)
Fixpoint eval_loop (n : nat) (st : EvalState) : result EvalState :=
  match n with
  | 0 => Ok st
  | S n' => st' ← eval_body st; eval_loop n' st'
  end.

Definition eval_init : EvalState :=
  {| generator := iter val_loader; stats_val := []; loss_val := 0%Q |}.

Definition test_eval : result (Tensor2 * Q) :=
  st ← eval_loop 100 eval_init;
  arr ← np_array (stats_val st);
  Ok (np_mean_axis0 (np_abs arr),
      (loss_val st / inject_Z (Z.of_nat (length (stats_val st))))%Q).

(** Vocabulary: what lines 66-74 compute from one drawn list (the array
    appended to [stats_val] and the loss), the list drawn at iteration
    [k] of a loader that is restarted whenever it is exhausted, and the
    pair computed at that iteration. *)
Definition batch_result (drawn : list Sample) : result (Tensor2 * Q) :=
  '(b, pad_mask) ← collate_feat drawn;
  let y := b_true_correction b in
  let pred_correction := net (b_features b) pad_mask in
  diff ← tsub y pred_correction;
  Ok (diff, loss_func pred_correction y).

Definition drawn_at (k : nat) : list Sample :=
  nth (k mod length val_loader) val_loader [].

Definition item_at (k : nat) : Tensor2 * Q :=
  match batch_result (drawn_at k) with
  | Ok r => r
  | Raise _ => ({| t_rows := []; t_dim := 0 |}, 0%Q)
  end.

(** Every batch of the loader goes through lines 66-74 without error. *)
Definition evaluable : Prop :=
  Forall (fun drawn => exists r, batch_result drawn = Ok r) val_loader.

(** ... and the arrays appended to [stats_val] all have shape [B, C]
    (one batch size, one correction length). *)
Definition evaluable_shape (B C : nat) : Prop :=
  Forall (fun drawn => exists d loss,
              batch_result drawn = Ok (d, loss) /\
              shape0 d = B /\ t_dim d = C)
         val_loader.
End TestEval.

(** ** The epoch loop of [main] (lines 131-167)

    [train_phase] is the training pass of one epoch (lines 134-153): it
    updates the parameters of the network through the optimizer and is a
    collaborator here.  Metric logging (lines 157-163) has no effect on the
    state below and is left out ([mean_acc] has a row for every sample of
    a batch, so [mean_acc[0]] exists).  [weights_file] is the content of the
    checkpoint file of the run and [saved_epochs] records, in order, the
    epochs after which [torch.save] was called. *)

Definition Qlt_bool (x y : Q) : bool := negb (Qle_bool y x).

Record TrainState (Model : Type) : Type := mkTrain {
  net_params   : Model;
  min_acc      : Q;
  weights_file : option Model;
  saved_epochs : list nat
}.
Arguments mkTrain {Model}.
Arguments net_params {Model}.
Arguments min_acc {Model}.
Arguments weights_file {Model}.
Arguments saved_epochs {Model}.

Section Main.
Context {Model : Type}.
Variable forward : Model -> Tensor3 -> Mask -> Tensor2.
Variable loss_func : Tensor2 -> Tensor2 -> Q.
Variable train_phase : Model -> Model.
Variable val_loader : Loader.

(** Line 131 and the state before the first epoch. *)
Definition main_init (net0 : Model) : TrainState Model :=
  {| net_params := net0; min_acc := 1000000%Q;
     weights_file := None; saved_epochs := [] |}.

(** Lines 133-166: one epoch. *)
Definition main_epoch (st : TrainState Model) (epoch : nat)
  : result (TrainState Model) :=
  let net := train_phase (net_params st) in
  '(mean_acc, test_loss) ← test_eval val_loader (forward net) loss_func;
  if Qlt_bool (np_sum mean_acc) (min_acc st)
  then Ok {| net_params := net;
             min_acc := np_sum mean_acc;
             weights_file := Some net;
             saved_epochs := saved_epochs st ++ [epoch] |}
  else Ok {| net_params := net;
             min_acc := min_acc st;
             weights_file := weights_file st;
             saved_epochs := saved_epochs st |}.

(** [for epoch in range(N_train_epochs)] *)
Definition main_loop (N_train_epochs : nat) (net0 : Model)
  : result (TrainState Model) :=
  fold_left (fun r epoch => st ← r; main_epoch st epoch)
            (seq 0 N_train_epochs) (Ok (main_init net0)).

(** Vocabulary: the parameters evaluated in epoch [e] (epochs count from
    0, as in the code), the score [np.sum(mean_acc)] of that epoch (0
    when the evaluation raises), the value of [min_acc] when epoch [e]
    is entered, and whether epoch [e] passes the test of line 164. *)
Definition net_after (net0 : Model) (e : nat) : Model :=
  Nat.iter (S e) train_phase net0.

Definition epoch_score (net0 : Model) (e : nat) : Q :=
  match test_eval val_loader (forward (net_after net0 e)) loss_func with
  | Ok (mean_acc, _) => np_sum mean_acc
  | Raise _ => 0%Q
  end.

Definition threshold (net0 : Model) (e : nat) : Q :=
  fold_left Qmin (epoch_score net0 <$> seq 0 e) 1000000%Q.

Definition improves (net0 : Model) (e : nat) : bool :=
  Qlt_bool (epoch_score net0 e) (threshold net0 e).

Definition saved_upto (net0 : Model) (n : nat) : list nat :=
  List.filter (improves net0) (seq 0 n).

(** The state in closed form after [n] epochs. *)
Definition state_after (net0 : Model) (n : nat) : TrainState Model :=
  {| net_params := Nat.iter n train_phase net0;
     min_acc := threshold net0 n;
     weights_file := net_after net0 <$> last (saved_upto net0 n);
     saved_epochs := saved_upto net0 n |}.

(** Every evaluation of the first [n] epochs returns. *)
Definition evaluations_return (net0 : Model) (n : nat) : Prop :=
  forall e, e < n ->
    exists r, test_eval val_loader (forward (net_after net0 e)) loss_func = Ok r.
End Main.

(** ** The training pass of one epoch (lines 135-153)

    [drawn] are the lists of samples the shuffled training loader draws in
    the epoch, each collated when the loop asks for it.  [update] is the
    effect of lines 143-153 on the parameters (forward pass, loss,
    gradients, optimizer step), a collaborator.  [tr_count] is the step
    counter of the metric writer and [tr_input_eg] the example input that
    is logged with the model at the end of [main]. *)

Record TrainLoop (Model : Type) : Type := mkLoop {
  tr_net      : Model;
  tr_count    : nat;
  tr_input_eg : option Tensor3
}.
Arguments mkLoop {Model}.
Arguments tr_net {Model}.
Arguments tr_count {Model}.
Arguments tr_input_eg {Model}.

Section TrainPass.
Context {Model : Type}.
Variable update : Model -> Tensor3 -> Mask -> Tensor2 -> Model.

(** Lines 136-153: the body of the loop on one collated batch. *)
Definition train_body (st : TrainLoop Model) (sample_batched : Batch * Mask)
  : TrainLoop Model :=
  let '(_sample_batched, pad_mask) := sample_batched in
  let x := b_features _sample_batched in
  let y := b_true_correction _sample_batched in
  let input_eg :=
    match tr_input_eg st with
    | None => Some (b_features _sample_batched)
    | Some eg => Some eg
    end in
  {| tr_net := update (tr_net st) x pad_mask y;
     tr_count := tr_count st + 1;
     tr_input_eg := input_eg |}.

(** Line 135: the loop over the loader. *)
Fixpoint train_pass (drawn : Loader) (st : TrainLoop Model)
  : result (TrainLoop Model) :=
  match drawn with
  | [] => Ok st
  | d :: drawn' =>
      sample_batched ← collate_feat d;
      train_pass drawn' (train_body st sample_batched)
  end.
End TrainPass.

(** The padded features of the first batch of a pass, when it collates. *)
Definition first_features (drawn : Loader) : option Tensor3 :=
  match drawn with
  | [] => None
  | d :: _ =>
      match collate_feat d with
      | Ok (b, _) => Some (b_features b)
      | Raise _ => None
      end
  end.

(** [torch.nn.MSELoss()] (line 123): the mean of the squared differences. *)
Definition MSELoss (input target : Tensor2) : Q :=
  let sq := concat (zip_with (zip_with (fun a b => (a - b) * (a - b))%Q)
                             (t_rows input) (t_rows target)) in
  (Qsum sq / inject_Z (Z.of_nat (length sq)))%Q.

(** ** Vocabulary of the statements *)

(** A sample of feature dimension [D] and correction length [C]. *)
Definition wf_sample (D C : nat) (s : Sample) : Prop :=
  t_dim (features s) = D /\ rect2 (features s) /\
  length (true_correction s) = C /\ length (guess s) = C.

(** [mask[i, l]] and [t[l, i]] (a row of [D] numbers), when in range. *)
Definition mask_at (m : Mask) (i l : nat) : option bool :=
  m !! i ≫= (.!! l).

Definition slot (t : Tensor3) (l i : nat) : option (list Q) :=
  data3 t !! l ≫= (.!! i).

(** The mask row of a sequence of [len] rows padded to [lmax]. *)
Definition mask_row (lmax len : nat) : list bool :=
  replicate len false ++ replicate (lmax - len) true.

(** The padded entries of a list of sequences. *)
Definition padded (d lmax : nat) (seqs : list Tensor2) : list (list (list Q)) :=
  (fun l => (fun t => nth l (t_rows t) (zero_row d)) <$> seqs) <$> seq 0 lmax.

(** A matrix of [B] rows of [C] entries, and its entry [(i, j)]. *)
Definition mshape (B C : nat) (m : list (list Q)) : Prop :=
  length m = B /\ Forall (fun r => length r = C) m.

Definition ment (m : list (list Q)) (i j : nat) : Q :=
  nth j (nth i m []) 0%Q.

Definition entry (t : Tensor2) (i j : nat) : Q := ment (t_rows t) i j.

(** The sample evaluated at iteration [k] when the validation set is gone
    through in order, again and again, and what the network predicts for
    it (a batch of that one sample). *)
Definition sample_at (val_set : list Sample) (k : nat) : option Sample :=
  val_set !! (k mod length val_set).

Definition prediction (net : Tensor3 -> Mask -> Tensor2) (s : Sample) : Tensor2 :=
  match collate_feat [s] with
  | Ok (b, pad_mask) => net (b_features b) pad_mask
  | Raise _ => {| t_rows := []; t_dim := 0 |}
  end.

(** The target of [s] has [C] entries and the network returns one row of
    [C] numbers for the batch of the one sample [s]. *)
Definition fits (net : Tensor3 -> Mask -> Tensor2) (C : nat) (s : Sample) : Prop :=
  length (true_correction s) = C /\
  mshape 1 C (t_rows (prediction net s)) /\ t_dim (prediction net s) = C.

(** [|target - prediction|] in dimension [c] at iteration [k]. *)
Definition abs_error (net : Tensor3 -> Mask -> Tensor2)
    (val_set : list Sample) (k c : nat) : Q :=
  match sample_at val_set k with
  | Some s =>
      Qabs (nth c (true_correction s) 0%Q - entry (prediction net s) 0 c)%Q
  | None => 0%Q
  end.

(** Lines 73-74 over the outcomes of successive iterations: each array is
    appended, each loss added, and the first exception ends the loop. *)
Fixpoint accumulate (items : list (result (Tensor2 * Q)))
    (stats : list Tensor2) (loss : Q) : result (list Tensor2 * Q) :=
  match items with
  | [] => Ok (stats, loss)
  | r :: items' =>
      '(d, l) ← r; accumulate items' (stats ++ [d]) (loss + l)%Q
  end.

(** Line 75 on the final [stats_val] and [loss_val]. *)
Definition eval_return (stats : list Tensor2) (loss : Q) : result (Tensor2 * Q) :=
  arr ← np_array stats;
  Ok (np_mean_axis0 (np_abs arr),
      (loss / inject_Z (Z.of_nat (length stats)))%Q).

(** [t[:, i, :]]: the padded sequence in column [i] of the batch. *)
Definition column (t : Tensor3) (i : nat) : list (list Q) :=
  omap (fun plane : list (list Q) => plane !! i) (data3 t).

(** The number of unmasked positions of a mask row. *)
Definition real_len (row : list bool) : nat :=
  length (List.filter negb row).

(** ** Concrete inputs used below *)

(** A sample of [len] rows of dimension 2, all entries and both vectors
    equal to [tag]. *)
Definition ex_s (len : nat) (tag : Q) : Sample :=
  {| features := {| t_rows := replicate len [tag; tag]; t_dim := 2 |};
     true_correction := [tag]; guess := [tag] |}.

(** Lengths 2, 0, 3, 2. *)
Definition ex_batch : list Sample :=
  [ex_s 2 1%Q; ex_s 0 2%Q; ex_s 3 3%Q; ex_s 2 4%Q].

(** Lengths 3, 1, 2: pairwise distinct. *)
Definition ex_distinct : list Sample := [ex_s 3 1%Q; ex_s 1 2%Q; ex_s 2 3%Q].

(** A sample whose vectors have two entries, unlike those of [ex_s]. *)
Definition ex_ragged : Sample :=
  {| features := {| t_rows := [[0%Q; 0%Q]]; t_dim := 2 |};
     true_correction := [1%Q; 2%Q]; guess := [1%Q; 2%Q] |}.

(** A validation set of two samples with targets 1 and 2. *)
Definition ex_val_pair : list Sample := [ex_s 2 1%Q; ex_s 0 2%Q].

(** A validation set of three samples with targets 1, 2 and 3. *)
Definition ex_val_set : list Sample := [ex_s 2 1%Q; ex_s 0 2%Q; ex_s 3 3%Q].

(** A network that predicts the number [p] for every batch. *)
Definition ex_net (p : Q) (_ : Tensor3) (_ : Mask) : Tensor2 :=
  {| t_rows := [[p]]; t_dim := 1 |}.

(** A network that predicts 0 for each of the two samples of a batch. *)
Definition ex_net2 (_ : Tensor3) (_ : Mask) : Tensor2 :=
  {| t_rows := [[0%Q]; [0%Q]]; t_dim := 1 |}.

(** A run of [main] whose epoch [e] has score [nth e scores 0]: the
    validation set is one sample with target 0, the parameters of the
    model count the training passes done, and the network predicts the
    score scheduled for the pass. *)
Definition demo_val_set : list Sample := [ex_s 1 0%Q].

Definition demo_forward (scores : list Q) (passes : nat)
    (_ : Tensor3) (_ : Mask) : Tensor2 :=
  {| t_rows := [[nth (pred passes) scores 0%Q]]; t_dim := 1 |}.

Definition demo_main (scores : list Q) (n : nat) : result (TrainState nat) :=
  main_loop (demo_forward scores) MSELoss S (DataLoader1 demo_val_set) n 0.

Definition demo_score (scores : list Q) (e : nat) : Q :=
  epoch_score (demo_forward scores) MSELoss S (DataLoader1 demo_val_set) 0 e.

(** * Properties *)

(** ** The stable descending sort *)

Section SortedFacts.
Context {A : Type} (key : A -> nat).

Lemma insert_desc_perm (x : A) (l : list A) :
  insert_desc key x l ≡ₚ x :: l.
Proof.
  induction l as [|y l IH]; simpl; [done|].
  destruct (key x <? key y); [|done].
  rewrite IH. apply Permutation_swap.
Qed.

Lemma sorted_desc_perm (l : list A) : sorted_desc key l ≡ₚ l.
Proof.
  induction l as [|x l IH]; simpl; [done|].
  rewrite insert_desc_perm. by rewrite IH.
Qed.

Lemma sorted_desc_length (l : list A) :
  length (sorted_desc key l) = length l.
Proof. apply Permutation_length, sorted_desc_perm. Qed.

Lemma sorted_desc_nil_inv (l : list A) : sorted_desc key l = [] -> l = [].
Proof.
  intros H. apply (f_equal length) in H.
  rewrite sorted_desc_length in H. by destruct l.
Qed.

Lemma insert_desc_sorted (x : A) (l : list A) :
  StronglySorted (desc key) l -> StronglySorted (desc key) (insert_desc key x l).
Proof.
  induction 1 as [|y l Hl IH Hy]; simpl.
  - repeat constructor.
  - destruct (Nat.ltb_spec (key x) (key y)) as [Hlt|Hge].
    + constructor; [done|].
      rewrite insert_desc_perm. constructor; [unfold desc; lia | done].
    + constructor; [by constructor|].
      constructor; [done|].
      eapply Forall_impl; [exact Hy|]. unfold desc. intros z Hz. lia.
Qed.

Lemma sorted_desc_sorted (l : list A) :
  StronglySorted (desc key) (sorted_desc key l).
Proof.
  induction l; simpl; [constructor | by apply insert_desc_sorted].
Qed.

Lemma insert_desc_with_key (k : nat) (x : A) (l : list A) :
  StronglySorted (desc key) l ->
  with_key key k (insert_desc key x l) = with_key key k (x :: l).
Proof.
  unfold with_key, desc.
  induction 1 as [|y l Hl IH Hy]; simpl; [done|].
  destruct (Nat.ltb_spec (key x) (key y)) as [Hlt|Hge]; [|done].
  rewrite filter_cons, IH, !filter_cons.
  destruct (decide (key y = k)), (decide (key x = k)); try done; lia.
Qed.

Lemma sorted_desc_stable (k : nat) (l : list A) :
  with_key key k (sorted_desc key l) = with_key key k l.
Proof.
  induction l as [|x l IH]; simpl; [done|].
  rewrite insert_desc_with_key by apply sorted_desc_sorted.
  unfold with_key in *. by rewrite !filter_cons, IH.
Qed.

Lemma sorted_desc_lookup_le (l : list A) (i j : nat) (x y : A) :
  i <= j ->
  sorted_desc key l !! i = Some x -> sorted_desc key l !! j = Some y ->
  key y <= key x.
Proof.
  intros Hij Hi Hj.
  destruct (decide (i = j)) as [->|Hne].
  - rewrite Hi in Hj. by inversion Hj.
  - pose proof (sorted_desc_sorted l) as Hs.
    revert i j Hij Hne Hi Hj.
    induction Hs as [|z l' Hl IH Hz]; intros i j Hij Hne Hi Hj; [done|].
    destruct i as [|i], j as [|j]; simpl in *; try lia.
    + inversion Hi; subst.
      rewrite Forall_forall in Hz. apply Hz.
      by eapply list_elem_of_lookup_2.
    + destruct (decide (i = j)) as [->|Hne'].
      * rewrite Hi in Hj. by inversion Hj.
      * eapply (IH i j); [lia | done | done | done].
Qed.

(** A list whose keys already never increase is left as it is. *)
Lemma insert_desc_head (x : A) (l : list A) :
  Forall (fun y => key y <= key x) l -> insert_desc key x l = x :: l.
Proof.
  destruct 1 as [|y l Hy _]; simpl; [done|].
  destruct (Nat.ltb_spec (key x) (key y)); [lia | done].
Qed.

Lemma sorted_desc_id (l : list A) :
  StronglySorted (desc key) l -> sorted_desc key l = l.
Proof.
  induction 1 as [|x l Hl IH Hx]; simpl; [done|].
  rewrite IH. by apply insert_desc_head.
Qed.
End SortedFacts.

(** ** Collation *)

Lemma max_len_ge (seqs : list Tensor2) (t : Tensor2) :
  t ∈ seqs -> shape0 t <= max_len seqs.
Proof.
  induction 1 as [t seqs|t u seqs _ IH]; simpl; lia.
Qed.

Lemma max_len_perm (seqs seqs' : list Tensor2) :
  seqs ≡ₚ seqs' -> max_len seqs = max_len seqs'.
Proof.
  induction 1; simpl; lia.
Qed.

Lemma max_len_const (k : nat) (seqs : list Tensor2) :
  seqs <> [] -> Forall (fun t => shape0 t = k) seqs -> max_len seqs = k.
Proof.
  intros Hne H. induction H as [|t seqs Ht _ IH]; [done|].
  simpl. destruct seqs as [|u seqs]; simpl in *; [lia|].
  rewrite IH by done. lia.
Qed.

Lemma forallb_dim (d : nat) (seqs : list Tensor2) :
  Forall (fun t => t_dim t = d) seqs ->
  forallb (fun t => t_dim t =? d) seqs = true.
Proof.
  induction 1 as [|t seqs Ht _ IH]; simpl; [done|].
  rewrite IH, andb_true_r. by apply Nat.eqb_eq.
Qed.

Lemma forallb_len (c : nat) (vs : list (list Q)) :
  Forall (fun v => length v = c) vs ->
  forallb (fun v => length v =? c) vs = true.
Proof.
  induction 1 as [|v vs Hv _ IH]; simpl; [done|].
  rewrite IH, andb_true_r. by apply Nat.eqb_eq.
Qed.

Lemma pad_sequence_uniform (d : nat) (seqs : list Tensor2) :
  seqs <> [] -> Forall (fun t => t_dim t = d) seqs ->
  pad_sequence seqs =
    Ok {| data3 := padded d (max_len seqs) seqs;
          size3 := (max_len seqs, length seqs, d) |}.
Proof.
  intros Hne H. destruct seqs as [|s0 seqs]; [done|].
  unfold pad_sequence.
  assert (t_dim s0 = d) as -> by (by inversion H).
  by rewrite forallb_dim.
Qed.

Lemma stack_uniform (c : nat) (vs : list (list Q)) :
  vs <> [] -> Forall (fun v => length v = c) vs ->
  stack vs = Ok {| t_rows := vs; t_dim := c |}.
Proof.
  intros Hne H. destruct vs as [|v0 vs]; [done|].
  unfold stack.
  assert (length v0 = c) as -> by (by inversion H).
  by rewrite forallb_len.
Qed.

Lemma to_bool_set_from (lmax k : nat) :
  k <= lmax ->
  (fun v => negb (Qeq_bool v 0)) <$> set_from k (replicate lmax 0%Q)
  = mask_row lmax k.
Proof.
  intros Hk. unfold set_from, mask_row.
  rewrite take_replicate, length_replicate, fmap_app, !fmap_replicate.
  by rewrite Nat.min_l.
Qed.

(** The loop of lines 42-43, started at row [j]: row [i] is assigned once,
    from the sequence met at that index. *)
Lemma fold_assign_tail_lookup (feats : list Tensor2) :
  forall (j : nat) (m : list (list Q)) (i : nat),
    fold_left (fun m ix => assign_tail (fst ix) (shape0 (snd ix)) m)
              (imap (fun k x => (j + k, x)) feats) m !! i
    = match feats !! (i - j) with
      | Some f => if decide (j <= i) then set_from (shape0 f) <$> m !! i
                  else m !! i
      | None => m !! i
      end.
Proof.
  induction feats as [|f feats IH]; intros j m i; simpl.
  - by destruct (i - j).
  - rewrite (imap_ext _ (fun k x => (S j + k, x))) by (intros; simpl; f_equal; lia).
    rewrite IH. unfold assign_tail. rewrite Nat.add_0_r.
    destruct (decide (S j <= i)) as [Hle|Hgt].
    + replace (i - j) with (S (i - S j)) by lia. simpl.
      rewrite list_lookup_alter_ne by lia.
      destruct (feats !! (i - S j)); [|done].
      by rewrite decide_True by lia.
    + assert (match feats !! (i - S j) with
              | Some _ | None => alter (set_from (shape0 f)) j m !! i
              end = alter (set_from (shape0 f)) j m !! i) as ->
        by (by destruct (feats !! (i - S j))).
      destruct (decide (j = i)) as [->|Hne].
      * rewrite Nat.sub_diag. simpl.
        rewrite list_lookup_alter_eq. by rewrite decide_True by lia.
      * rewrite list_lookup_alter_ne by done.
        replace (i - j) with 0 by lia. simpl.
        by rewrite decide_False by lia.
Qed.

Lemma pad_mask_rows (lmax : nat) (feats : list Tensor2) :
  Forall (fun f => shape0 f <= lmax) feats ->
  to_bool (fold_left (fun m ix => assign_tail (fst ix) (shape0 (snd ix)) m)
                     (enumerate feats) (np_zeros (length feats) lmax))
  = (fun f => mask_row lmax (shape0 f)) <$> feats.
Proof.
  intros Hle. apply list_eq. intros i.
  unfold to_bool, enumerate. rewrite !list_lookup_fmap.
  rewrite (fold_assign_tail_lookup feats 0), Nat.sub_0_r.
  destruct (feats !! i) as [f|] eqn:Hf; simpl.
  - unfold np_zeros. rewrite lookup_replicate_2 by (by eapply lookup_lt_Some).
    simpl. f_equal. apply to_bool_set_from.
    rewrite Forall_forall in Hle. apply Hle.
    by eapply list_elem_of_lookup_2.
  - unfold np_zeros.
    by rewrite (proj1 (lookup_replicate_None _ _ _) (proj1 (lookup_ge_None _ _) Hf)).
Qed.

Lemma wf_sorted (D C : nat) (batch : list Sample) :
  Forall (wf_sample D C) batch ->
  Forall (wf_sample D C) (sorted_desc seq_len batch).
Proof. by rewrite sorted_desc_perm. Qed.

(** What [collate_feat] returns on a non-empty list of samples of one
    feature dimension and one correction length. *)
Lemma collate_feat_wf (D C : nat) (batch : list Sample) :
  batch <> [] -> Forall (wf_sample D C) batch ->
  let sb := sorted_desc seq_len batch in
  let lmax := max_len (features <$> batch) in
  collate_feat batch =
    Ok ({| b_features := {| data3 := padded D lmax (features <$> sb);
                            size3 := (lmax, length batch, D) |};
           b_true_correction := {| t_rows := true_correction <$> sb; t_dim := C |};
           b_guess := {| t_rows := guess <$> sb; t_dim := C |} |},
        (fun f => mask_row lmax (shape0 f)) <$> (features <$> sb)).
Proof.
  intros Hne Hwf sb lmax.
  pose proof (wf_sorted D C batch Hwf) as Hsb. fold sb in Hsb.
  assert (sb <> []) as Hsbne.
  { intros E. by apply Hne, (sorted_desc_nil_inv seq_len). }
  assert (max_len (features <$> sb) = lmax) as Hmax.
  { apply max_len_perm, fmap_Permutation, sorted_desc_perm. }
  assert (length (features <$> sb) = length batch) as Hlen.
  { unfold sb. by rewrite length_fmap, sorted_desc_length. }
  unfold collate_feat. fold sb.
  rewrite (pad_sequence_uniform D).
  - simpl. rewrite Hmax, <- Hlen.
    rewrite pad_mask_rows.
    + rewrite (stack_uniform C), (stack_uniform C); first done.
      * by destruct sb.
      * apply Forall_fmap. eapply Forall_impl; [exact Hsb|].
        by intros s (_ & _ & ? & ?).
      * by destruct sb.
      * apply Forall_fmap. eapply Forall_impl; [exact Hsb|].
        by intros s (_ & _ & ? & ?).
    + rewrite <- Hmax. apply Forall_forall. intros f Hf.
      by apply max_len_ge.
  - by destruct sb.
  - apply Forall_fmap. eapply Forall_impl; [exact Hsb|].
    by intros s (? & _).
Qed.

Lemma mask_row_lookup (lmax len l : nat) :
  len <= lmax -> l < lmax ->
  mask_row lmax len !! l = Some (bool_decide (len <= l)).
Proof.
  intros Hlen Hl. unfold mask_row.
  destruct (decide (len <= l)) as [Hle|Hgt].
  - rewrite lookup_app_r by (rewrite length_replicate; lia).
    rewrite length_replicate, lookup_replicate_2 by lia.
    by rewrite bool_decide_eq_true_2.
  - rewrite lookup_app_l by (rewrite length_replicate; lia).
    rewrite lookup_replicate_2 by lia.
    by rewrite bool_decide_eq_false_2.
Qed.

Lemma mask_row_full (lmax : nat) : mask_row lmax lmax = replicate lmax false.
Proof.
  unfold mask_row. rewrite Nat.sub_diag. simpl. by rewrite app_nil_r.
Qed.

Lemma padded_slot (d lmax l i : nat) (seqs : list Tensor2) (t : Tensor2) :
  l < lmax -> seqs !! i = Some t ->
  padded d lmax seqs !! l ≫= (.!! i) = Some (nth l (t_rows t) (zero_row d)).
Proof.
  intros Hl Ht. unfold padded.
  rewrite list_lookup_fmap, lookup_seq_lt by done. simpl.
  by rewrite list_lookup_fmap, Ht.
Qed.

Lemma seq_len_le_max (batch : list Sample) (s : Sample) :
  s ∈ batch -> seq_len s <= max_len (features <$> batch).
Proof.
  intros Hs. apply max_len_ge. by apply list_elem_of_fmap_2.
Qed.

Lemma sorted_lookup_elem (batch : list Sample) (i : nat) (s : Sample) :
  sorted_desc seq_len batch !! i = Some s -> s ∈ batch.
Proof.
  intros Hi. rewrite <- (sorted_desc_perm seq_len batch).
  by eapply list_elem_of_lookup_2.
Qed.

(** C1.  For a non-empty list of samples of one feature dimension and one
    correction length, [collate_feat] returns a mask with
    [pad_mask[i, l] = True] exactly when [l >= L_i], where [L_i] is the
    length of the sample at sorted position [i]; the mask is all [False]
    for a single sample and for samples of equal lengths.  (Lengths need
    not be positive for this.) *)
Theorem collate_feat_pad_mask (D C : nat) (batch : list Sample) :
  batch <> [] -> Forall (wf_sample D C) batch ->
  exists b mask,
    collate_feat batch = Ok (b, mask) /\
    (forall i l s,
        sorted_desc seq_len batch !! i = Some s ->
        l < max_len (features <$> batch) ->
        exists v, mask_at mask i l = Some v /\ (v = true <-> seq_len s <= l)) /\
    (length batch = 1 -> Forall (Forall (fun v => v = false)) mask) /\
    ((forall s s', s ∈ batch -> s' ∈ batch -> seq_len s = seq_len s') ->
     Forall (Forall (fun v => v = false)) mask).
Proof.
  intros Hne Hwf. eexists _, _. split; [by apply (collate_feat_wf D C)|].
  assert ((forall s s', s ∈ batch -> s' ∈ batch -> seq_len s = seq_len s') ->
          Forall (Forall (fun v => v = false))
            ((fun f => mask_row (max_len (features <$> batch)) (shape0 f))
               <$> (features <$> sorted_desc seq_len batch))) as Heq.
  { intros Hall. destruct batch as [|s0 batch']; [done|].
    assert (max_len (features <$> s0 :: batch') = seq_len s0) as ->.
    { apply max_len_const; [done|]. apply Forall_fmap, Forall_forall.
      intros s Hs. apply Hall; [done | by left]. }
    rewrite <- list_fmap_compose. apply Forall_fmap, Forall_forall.
    intros s Hs. simpl.
    rewrite (sorted_desc_perm seq_len) in Hs.
    change (shape0 (features s)) with (seq_len s).
    rewrite (Hall s s0 Hs) by (by left).
    rewrite mask_row_full. by apply Forall_replicate. }
  split; [|split; [|done]].
  - intros i l s Hi Hl. exists (bool_decide (seq_len s <= l)). split.
    + unfold mask_at. rewrite !list_lookup_fmap, Hi. simpl.
      apply mask_row_lookup; [|done].
      eapply seq_len_le_max, sorted_lookup_elem, Hi.
    + by rewrite bool_decide_eq_true.
  - intros H1. apply Heq. intros s s' Hs Hs'.
    destruct batch as [|s0 [|s1 batch']]; [done| |done].
    apply list_elem_of_singleton in Hs, Hs'. by subst.
Qed.

Lemma collate_feat_pad_mask_witness :
  exists b mask,
    collate_feat ex_batch = Ok (b, mask) /\
    mask = [[false; false; false]; [false; false; true];
            [false; false; true]; [true; true; true]].
Proof.
  destruct (collate_feat_pad_mask 2 1 ex_batch) as (b & mask & Hc & _).
  - done.
  - repeat constructor.
  - exists b, mask. split; [done|].
    vm_compute in Hc. by inversion Hc.
Defined.

(** C5.  [collate_feat] orders the batch by non-increasing sequence
    length, keeps the input order among samples of equal length, and the
    rows of [true_correction] and [guess] (shape [N, C]), the columns of the
    padded features and the rows of the mask all follow that sorted
    order. *)
Theorem collate_feat_sorted_order (D C : nat) (batch : list Sample) :
  batch <> [] -> Forall (wf_sample D C) batch ->
  exists sb b mask,
    collate_feat batch = Ok (b, mask) /\
    sb ≡ₚ batch /\
    (forall i j s s',
        i <= j -> sb !! i = Some s -> sb !! j = Some s' ->
        seq_len s' <= seq_len s) /\
    (forall k, with_key seq_len k sb = with_key seq_len k batch) /\
    b_true_correction b = {| t_rows := true_correction <$> sb; t_dim := C |} /\
    b_guess b = {| t_rows := guess <$> sb; t_dim := C |} /\
    length sb = length batch /\
    (forall i s,
        sb !! i = Some s ->
        (forall l row, t_rows (features s) !! l = Some row ->
                       slot (b_features b) l i = Some row) /\
        mask !! i = Some (mask_row (max_len (features <$> batch)) (seq_len s))).
Proof.
  intros Hne Hwf. exists (sorted_desc seq_len batch). eexists _, _.
  split; [by apply (collate_feat_wf D C)|].
  split; [apply sorted_desc_perm|].
  split; [intros i j s s'; apply sorted_desc_lookup_le|].
  split; [intros k; apply sorted_desc_stable|].
  split; [done|]. split; [done|].
  split; [apply sorted_desc_length|].
  intros i s Hi. split.
  - intros l row Hrow. unfold slot. simpl.
    assert (l < max_len (features <$> batch)) as Hl.
    { apply lookup_lt_Some in Hrow.
      pose proof (seq_len_le_max batch s (sorted_lookup_elem _ _ _ Hi)).
      unfold seq_len, shape0 in *. lia. }
    rewrite (padded_slot _ _ _ _ _ (features s)) by (by rewrite ?list_lookup_fmap, ?Hi).
    f_equal. by apply nth_lookup_Some.
  - by rewrite !list_lookup_fmap, Hi.
Qed.

Lemma collate_feat_sorted_order_witness :
  exists b mask,
    collate_feat ex_batch = Ok (b, mask) /\
    t_rows (b_true_correction b) = [[3%Q]; [1%Q]; [4%Q]; [2%Q]].
Proof.
  destruct (collate_feat_sorted_order 2 1 ex_batch)
    as (sb & b & mask & Hc & _).
  - done.
  - repeat constructor.
  - exists b, mask. split; [done|].
    vm_compute in Hc. by inversion Hc.
Defined.

Lemma max_len_attained (seqs : list Tensor2) :
  seqs <> [] -> exists t, t ∈ seqs /\ shape0 t = max_len seqs.
Proof.
  induction seqs as [|t seqs IH]; [done|]. intros _.
  destruct seqs as [|u seqs].
  - exists t. split; [by left|]. simpl. lia.
  - destruct IH as (t' & Ht' & E); [done|].
    destruct (Nat.max_spec (shape0 t) (max_len (u :: seqs))) as [[_ Hm]|[_ Hm]].
    + exists t'. split; [by right|]. change (max_len (t :: u :: seqs))
        with (Nat.max (shape0 t) (max_len (u :: seqs))). lia.
    + exists t. split; [by left|]. change (max_len (t :: u :: seqs))
        with (Nat.max (shape0 t) (max_len (u :: seqs))). lia.
Qed.

(** C6.  For a batch of [N] samples of feature dimension [D] whose longest
    sequence has [L_max] rows, the padded features have shape
    [L_max, N, D], every position past the end of a sequence holds a zero
    row, and the mask has shape [(N, L_max)]. *)
Theorem collate_feat_shapes (D C : nat) (batch : list Sample) :
  batch <> [] -> Forall (wf_sample D C) batch ->
  let N := length batch in
  let L_max := max_len (features <$> batch) in
  (forall s, s ∈ batch -> seq_len s <= L_max) /\
  (exists s, s ∈ batch /\ seq_len s = L_max) /\
  exists b mask,
    collate_feat batch = Ok (b, mask) /\
    size3 (b_features b) = (L_max, N, D) /\
    length (data3 (b_features b)) = L_max /\
    Forall (fun plane => length plane = N /\
                         Forall (fun row => length row = D) plane)
           (data3 (b_features b)) /\
    (forall i l s,
        sorted_desc seq_len batch !! i = Some s ->
        seq_len s <= l < L_max ->
        slot (b_features b) l i = Some (zero_row D)) /\
    length mask = N /\
    Forall (fun row => length row = L_max) mask.
Proof.
  intros Hne Hwf N L_max.
  split; [intros s Hs; by apply seq_len_le_max|].
  split.
  { destruct (max_len_attained (features <$> batch)) as (t & Ht & E).
    - by destruct batch.
    - apply list_elem_of_fmap in Ht as (s & -> & Hs). by exists s. }
  eexists _, _. split; [by apply (collate_feat_wf D C)|]. simpl.
  split; [done|].
  split; [unfold padded; by rewrite length_fmap, length_seq|].
  split.
  { unfold padded. apply Forall_fmap, Forall_forall. intros l _. simpl.
    split; [by rewrite !length_fmap, sorted_desc_length|].
    rewrite <- list_fmap_compose. apply Forall_fmap.
    eapply Forall_impl; [exact (wf_sorted D C batch Hwf)|].
    intros s (Hd & Hr & _). simpl.
    destruct (nth_lookup_or_length (t_rows (features s)) l (zero_row D))
      as [Hl|Hl].
    - unfold rect2 in Hr. rewrite Forall_forall in Hr. rewrite Hd in Hr.
      apply Hr. eapply list_elem_of_lookup_2, Hl.
    - rewrite nth_overflow by done. apply length_replicate. }
  split.
  { intros i l s Hi [Hlo Hhi]. unfold slot. simpl.
    rewrite (padded_slot _ _ _ _ _ (features s))
      by (by rewrite ?list_lookup_fmap, ?Hi).
    by rewrite nth_overflow. }
  split; [by rewrite !length_fmap, sorted_desc_length|].
  rewrite <- list_fmap_compose. apply Forall_fmap, Forall_forall.
  intros s Hs. simpl. unfold mask_row.
  rewrite (sorted_desc_perm seq_len) in Hs.
  pose proof (seq_len_le_max batch s Hs) as Hle. unfold seq_len in Hle.
  rewrite length_app, !length_replicate. fold L_max. unfold L_max. lia.
Qed.

Lemma collate_feat_shapes_witness :
  exists b mask,
    collate_feat ex_batch = Ok (b, mask) /\
    size3 (b_features b) = (3, 4, 2) /\
    length mask = 4.
Proof.
  destruct (collate_feat_shapes 2 1 ex_batch)
    as (_ & _ & b & mask & Hc & Hs & _ & _ & _ & Hm & _).
  - done.
  - repeat constructor.
  - by exists b, mask.
Defined.

(** C2 (as amended).  A sample of length 0 is not rejected: for a list of
    samples of one feature dimension and one correction length that
    contains one, [collate_feat] returns a batch in which the column of
    that sample holds zero rows only and its mask row is [True]
    throughout. *)
Theorem collate_feat_zero_length_padded
    (D C : nat) (batch : list Sample) (s : Sample) :
  Forall (wf_sample D C) batch -> s ∈ batch -> seq_len s = 0 ->
  let L_max := max_len (features <$> batch) in
  exists b mask i,
    collate_feat batch = Ok (b, mask) /\
    sorted_desc seq_len batch !! i = Some s /\
    mask !! i = Some (replicate L_max true) /\
    (forall l, l < L_max -> slot (b_features b) l i = Some (zero_row D)).
Proof.
  intros Hwf Hs H0 L_max.
  assert (batch <> []) as Hne by (intros ->; by apply not_elem_of_nil in Hs).
  assert (s ∈ sorted_desc seq_len batch) as Hs'
    by (by rewrite (sorted_desc_perm seq_len)).
  apply list_elem_of_lookup in Hs' as [i Hi].
  eexists _, _, i. split; [by apply (collate_feat_wf D C)|].
  split; [done|]. split.
  - rewrite !list_lookup_fmap, Hi. simpl.
    change (shape0 (features s)) with (seq_len s). rewrite H0.
    unfold mask_row. simpl. by rewrite Nat.sub_0_r.
  - intros l Hl. unfold slot. simpl.
    rewrite (padded_slot _ _ _ _ _ (features s))
      by (by rewrite ?list_lookup_fmap, ?Hi).
    rewrite nth_overflow; [done|]. unfold seq_len, shape0 in H0. lia.
Qed.

Lemma collate_feat_zero_length_padded_witness :
  exists b mask i,
    collate_feat ex_batch = Ok (b, mask) /\
    mask !! i = Some [true; true; true].
Proof.
  destruct (collate_feat_zero_length_padded 2 1 ex_batch (ex_s 0 2%Q))
    as (b & mask & i & Hc & _ & Hm & _).
  - repeat constructor.
  - apply list_elem_of_In. simpl. auto.
  - reflexivity.
  - by exists b, mask, i.
Defined.

(** C2 as stated fails: a list with a zero-length sample is collated
    without any error. *)
Lemma collate_feat_zero_length_not_rejected :
  ~ (forall batch : list Sample,
        (exists s, s ∈ batch /\ seq_len s = 0) ->
        exists e, collate_feat batch = Raise e).
Proof.
  intros H. destruct (H ex_batch) as [e He].
  - exists (ex_s 0 2%Q). split; [|reflexivity].
    apply list_elem_of_In. simpl. auto.
  - vm_compute in He. discriminate He.
Qed.

(** ** Two invocations on one list object *)

Lemma fold_assign_tail_at
    (ls : list (list Sample)) (arrs : list (list (list Q)))
    (l : list (nat * Tensor2)) :
  forall m : list (list Q),
    fold_left (fun h ix =>
                 assign_tail_at (length arrs) (fst ix) (shape0 (snd ix)) h)
              l {| st_lists := ls; st_arrays := arrs ++ [m] |}
    = {| st_lists := ls;
         st_arrays :=
           arrs ++ [fold_left (fun m ix => assign_tail (fst ix) (shape0 (snd ix)) m)
                              l m] |}.
Proof.
  induction l as [|ix l IH]; intros m; [done|].
  cbn [fold_left]. rewrite <- IH. f_equal.
  unfold assign_tail_at. cbn [st_lists st_arrays]. f_equal.
  rewrite <- (Nat.add_0_r (length arrs)) at 1. by rewrite alter_app_r.
Qed.

(** A call returns what [collate_feat] computes from the content of the
    list object, and only adds objects to the store. *)
Lemma collate_feat_store_run (h : Store) (batch : nat) (items : list Sample) :
  st_lists h !! batch = Some items ->
  exists ls arrs,
    collate_feat_store batch h
    = ({| st_lists := st_lists h ++ ls; st_arrays := st_arrays h ++ arrs |},
       collate_feat items).
Proof.
  intros Hb. unfold collate_feat_store, collate_feat. rewrite Hb.
  unfold new_list. cbn [st_lists st_arrays].
  rewrite list_lookup_middle by done. cbn [default].
  destruct (pad_sequence _) as [fp|e]; cbn [mbind result_bind].
  2:{ exists [sorted_desc seq_len items], []. by rewrite app_nil_r. }
  destruct (size3 fp) as [[L N] dim]. unfold new_array.
  cbn [st_lists st_arrays].
  rewrite fold_assign_tail_at. cbn [st_lists st_arrays].
  rewrite list_lookup_middle by done. cbn [default].
  destruct (stack (true_correction <$> _)) as [c|e]; cbn [mbind result_bind];
    [|by eexists _, _].
  destruct (stack (guess <$> _)) as [g|e]; cbn [mbind result_bind];
    by eexists _, _.
Qed.

(** C8.  [collate_feat] is deterministic on the list it is given: it does
    not change the list object (nor any other object that was in the
    store), so two invocations on the same list return the same outcome,
    the one computed from the original, unsorted content; when batches are
    returned they have identical padded features, masks, [true_correction]
    and [guess]. *)
Theorem collate_feat_store_deterministic
    (h : Store) (batch : nat) (items : list Sample) :
  st_lists h !! batch = Some items ->
  let run1 := collate_feat_store batch h in
  let run2 := collate_feat_store batch (fst run1) in
  snd run1 = collate_feat items /\
  snd run2 = snd run1 /\
  (forall b1 m1 b2 m2,
      snd run1 = Ok (b1, m1) -> snd run2 = Ok (b2, m2) ->
      b_features b1 = b_features b2 /\ m1 = m2 /\
      b_true_correction b1 = b_true_correction b2 /\
      b_guess b1 = b_guess b2) /\
  st_lists (fst run1) !! batch = Some items /\
  st_lists (fst run2) !! batch = Some items /\
  (forall l x, st_lists h !! l = Some x -> st_lists (fst run2) !! l = Some x) /\
  (forall l a, st_arrays h !! l = Some a -> st_arrays (fst run2) !! l = Some a).
Proof.
  intros Hb run1 run2.
  destruct (collate_feat_store_run h batch items Hb) as (ls1 & arrs1 & H1).
  assert (st_lists (fst run1) !! batch = Some items) as Hb1.
  { subst run1. rewrite H1. cbn [fst st_lists]. by apply lookup_app_l_Some. }
  destruct (collate_feat_store_run (fst run1) batch items Hb1)
    as (ls2 & arrs2 & H2).
  fold run2 in H2. subst run1. rewrite H1 in *. cbn [fst snd] in *.
  rewrite H2. cbn [fst snd st_lists st_arrays].
  split; [done|]. split; [done|]. split.
  { intros b1 m1 b2 m2 E1 E2. rewrite E1 in E2. by injection E2 as <- <-. }
  split; [done|]. split; [by apply lookup_app_l_Some|]. split.
  - intros l x Hl. by do 2 apply lookup_app_l_Some.
  - intros l a Hl. by do 2 apply lookup_app_l_Some.
Qed.

Lemma collate_feat_store_deterministic_witness :
  let h := {| st_lists := [ex_batch]; st_arrays := [] |} in
  snd (collate_feat_store 0 (fst (collate_feat_store 0 h)))
  = snd (collate_feat_store 0 h).
Proof.
  exact (proj1 (proj2 (collate_feat_store_deterministic
                         {| st_lists := [ex_batch]; st_arrays := [] |}
                         0 ex_batch eq_refl))).
Defined.

(** X6.  Collating the already sorted list gives the same outcome: the
    sort of [collate_feat] leaves a list in descending order of length as
    it is. *)
Lemma collate_feat_presorted (batch : list Sample) :
  collate_feat (sorted_desc seq_len batch) = collate_feat batch.
Proof.
  unfold collate_feat.
  by rewrite (sorted_desc_id seq_len _ (sorted_desc_sorted seq_len batch)).
Qed.

(** ** The validation loop *)

Lemma next_drop (l : Loader) (p : nat) (drawn : list Sample) :
  l !! p = Some drawn ->
  next (drop p l) = b ← collate_feat drawn; Ok (b, drop (S p) l).
Proof.
  intros H. by rewrite (drop_S _ _ _ H).
Qed.

Lemma next_drop_all (l : Loader) : next (drop (length l) l) = Raise StopIteration.
Proof. by rewrite drop_all. Qed.

Section TestEvalFacts.
Variable val_loader : Loader.
Variable net : Tensor3 -> Mask -> Tensor2.
Variable loss_func : Tensor2 -> Tensor2 -> Q.

Local Abbreviation eval_body := (eval_body val_loader net loss_func).
Local Abbreviation eval_loop := (eval_loop val_loader net loss_func).
Local Abbreviation batch_result := (batch_result net loss_func).
Local Abbreviation item_at := (item_at val_loader net loss_func).
Local Abbreviation drawn_at := (drawn_at val_loader).
Local Abbreviation evaluable := (evaluable val_loader net loss_func).
Local Abbreviation test_eval := (test_eval val_loader net loss_func).

Lemma drawn_at_lookup (k : nat) :
  val_loader <> [] ->
  val_loader !! (k mod length val_loader) = Some (drawn_at k).
Proof.
  intros Hne. unfold drawn_at.
  assert (k mod length val_loader < length val_loader) as Hlt.
  { apply Nat.mod_upper_bound. by destruct val_loader. }
  destruct (nth_lookup_or_length val_loader (k mod length val_loader) [])
    as [H|H]; [done | lia].
Qed.

Lemma item_at_ok (k : nat) :
  val_loader <> [] -> evaluable -> batch_result (drawn_at k) = Ok (item_at k).
Proof.
  intros Hne Hev. unfold evaluable in Hev. rewrite Forall_forall in Hev.
  destruct (Hev (drawn_at k)) as [r Hr].
  - eapply list_elem_of_lookup_2, drawn_at_lookup, Hne.
  - unfold item_at. by rewrite Hr.
Qed.

(** One iteration, when [p] batches of the current pass are consumed
    and [k] iterations are done. *)
Lemma eval_body_step (st : EvalState) (p k : nat) :
  val_loader <> [] -> evaluable ->
  generator st = drop p val_loader ->
  p <= length val_loader ->
  p mod length val_loader = k mod length val_loader ->
  exists p',
    p' <= length val_loader /\
    p' mod length val_loader = S k mod length val_loader /\
    eval_body st =
      Ok {| generator := drop p' val_loader;
            stats_val := stats_val st ++ [fst (item_at k)];
            loss_val := (loss_val st + snd (item_at k))%Q |}.
Proof.
  intros Hne Hev Hg Hp Hmod.
  set (n := length val_loader) in *.
  assert (0 < n) as Hn by (subst n; destruct val_loader; simpl; [done|lia]).
  pose proof (item_at_ok k Hne Hev) as Hitem.
  pose proof (drawn_at_lookup k Hne) as Hdrawn. fold n in Hdrawn.
  unfold batch_result in Hitem.
  destruct (collate_feat (drawn_at k)) as [[b pad_mask]|e] eqn:Hc;
    [|discriminate Hitem].
  simpl in Hitem.
  destruct (tsub (b_true_correction b) (net (b_features b) pad_mask))
    as [diff|e] eqn:Hsub; [|discriminate Hitem].
  simpl in Hitem. injection Hitem as Hitem.
  assert (exists q, q < n /\ q = k mod n /\
            next_or_restart val_loader (generator st)
            = Ok ((b, pad_mask), drop (S q) val_loader)) as (q & Hq & Hqk & Hnext).
  { destruct (decide (p < n)) as [Hlt|Hge].
    - exists p. rewrite Nat.mod_small in Hmod by done.
      split; [done|]. split; [done|].
      rewrite Hmod in *. unfold next_or_restart. rewrite Hg.
      rewrite (next_drop _ _ _ Hdrawn), Hc. reflexivity.
    - assert (p = n) as -> by lia.
      rewrite Nat.Div0.mod_same in Hmod.
      exists 0. split; [done|]. split; [done|].
      unfold next_or_restart. rewrite Hg. subst n. rewrite next_drop_all.
      unfold iter. rewrite <- Hmod in Hdrawn.
      change (next val_loader) with (next (drop 0 val_loader)).
      rewrite (next_drop val_loader 0 _ Hdrawn), Hc. reflexivity. }
  exists (S q). split; [lia|]. split.
  { rewrite Hqk. rewrite <- (Nat.add_1_r (k mod n)), <- (Nat.add_1_r k).
    by rewrite Nat.Div0.add_mod_idemp_l. }
  unfold eval_body. rewrite Hnext. simpl. rewrite Hsub. simpl.
  by rewrite <- Hitem.
Qed.

(** [j] iterations from iteration [k] on. *)
Lemma eval_loop_run (j : nat) :
  val_loader <> [] -> evaluable ->
  forall (st : EvalState) (p k : nat),
    generator st = drop p val_loader ->
    p <= length val_loader ->
    p mod length val_loader = k mod length val_loader ->
    exists g,
      eval_loop j st =
        Ok {| generator := g;
              stats_val := stats_val st ++ ((fun i => fst (item_at i)) <$> seq k j);
              loss_val := fold_left Qplus ((fun i => snd (item_at i)) <$> seq k j)
                                    (loss_val st) |}.
Proof.
  intros Hne Hev. induction j as [|j IH]; intros st p k Hg Hp Hmod.
  - exists (generator st). simpl. rewrite app_nil_r. by destruct st.
  - destruct (eval_body_step st p k Hne Hev Hg Hp Hmod)
      as (p' & Hp' & Hmod' & Hstep).
    simpl. rewrite Hstep. simpl.
    destruct (IH {| generator := drop p' val_loader;
                    stats_val := stats_val st ++ [fst (item_at k)];
                    loss_val := (loss_val st + snd (item_at k))%Q |}
                 p' (S k) eq_refl Hp' Hmod') as [g Hrun].
    exists g. rewrite Hrun. simpl. by rewrite <- app_assoc.
Qed.

Lemma evaluable_shape_evaluable (B C : nat) :
  evaluable_shape val_loader net loss_func B C -> evaluable.
Proof.
  intros H. eapply Forall_impl; [exact H|].
  intros drawn (d & loss & Hd & _). by eexists.
Qed.

Lemma item_at_shape (B C k : nat) :
  val_loader <> [] -> evaluable_shape val_loader net loss_func B C ->
  shape0 (fst (item_at k)) = B /\ t_dim (fst (item_at k)) = C.
Proof.
  intros Hne Hev.
  pose proof (item_at_ok k Hne (evaluable_shape_evaluable B C Hev)) as Hk.
  unfold evaluable_shape in Hev. rewrite Forall_forall in Hev.
  destruct (Hev (drawn_at k)) as (d & loss & Hr & Hs).
  - eapply list_elem_of_lookup_2, drawn_at_lookup, Hne.
  - rewrite Hr in Hk. injection Hk as <-. done.
Qed.

(** The state after the 100 iterations of line 60. *)
Lemma eval_loop_100 :
  val_loader <> [] -> evaluable ->
  exists g,
    eval_loop 100 (eval_init val_loader) =
      Ok {| generator := g;
            stats_val := (fun i => fst (item_at i)) <$> seq 0 100;
            loss_val := fold_left Qplus ((fun i => snd (item_at i)) <$> seq 0 100)
                                  0%Q |}.
Proof.
  intros Hne Hev.
  destruct (eval_loop_run 100 Hne Hev (eval_init val_loader) 0 0)
    as [g Hg]; [done | lia | done |].
  by exists g.
Qed.
End TestEvalFacts.

Lemma np_array_uniform (B C : nat) (l : list Tensor2) :
  l <> [] -> Forall (fun t => shape0 t = B /\ t_dim t = C) l ->
  np_array l = Ok {| data3 := t_rows <$> l; size3 := (length l, B, C) |}.
Proof.
  intros Hne H. destruct l as [|t0 l]; [done|].
  unfold np_array.
  assert (shape0 t0 = B /\ t_dim t0 = C) as [E1 E2] by (by inversion H).
  assert (forallb (same_shape t0) (t0 :: l) = true) as ->.
  { apply forallb_forall. intros t Ht%list_elem_of_In.
    rewrite Forall_forall in H. destruct (H t Ht) as [E3 E4].
    unfold same_shape. rewrite E1, E2, E3, E4, !Nat.eqb_refl. done. }
  by rewrite E1, E2.
Qed.

(** C3.  On a loader with at least one batch (whose batches go through
    the loop body and give arrays of one shape), [test_eval] runs the body
    exactly 100 times, iteration [k] on batch [k mod n] of the loader, so
    restarting it whenever it is exhausted, and returns as mean loss the
    sum of the 100 losses divided by 100. *)
Theorem test_eval_100_iterations
    (val_loader : Loader) (net : Tensor3 -> Mask -> Tensor2)
    (loss_func : Tensor2 -> Tensor2 -> Q) (B C : nat) :
  val_loader <> [] -> evaluable_shape val_loader net loss_func B C ->
  exists st acc,
    eval_loop val_loader net loss_func 100 (eval_init val_loader) = Ok st /\
    length (stats_val st) = 100 /\
    (forall k, k < 100 ->
       exists drawn d loss,
         val_loader !! (k mod length val_loader) = Some drawn /\
         batch_result net loss_func drawn = Ok (d, loss) /\
         item_at val_loader net loss_func k = (d, loss) /\
         stats_val st !! k = Some d) /\
    loss_val st =
      fold_left Qplus
        ((fun k => snd (item_at val_loader net loss_func k)) <$> seq 0 100) 0%Q /\
    test_eval val_loader net loss_func
      = Ok (acc, (loss_val st / inject_Z 100)%Q).
Proof.
  intros Hne Hsh.
  pose proof (evaluable_shape_evaluable _ _ _ B C Hsh) as Hev.
  destruct (eval_loop_100 val_loader net loss_func Hne Hev) as [g Hrun].
  eexists _, _. split; [exact Hrun|]. cbn [stats_val loss_val].
  split; [by rewrite length_fmap, length_seq|].
  split.
  { intros k Hk.
    exists (drawn_at val_loader k).
    destruct (item_at val_loader net loss_func k) as [d loss] eqn:Hitem.
    exists d, loss.
    split; [by apply drawn_at_lookup|].
    split; [rewrite <- Hitem; by apply item_at_ok|].
    split; [done|].
    rewrite list_lookup_fmap, lookup_seq_lt by done. simpl. by rewrite Hitem. }
  split; [done|].
  unfold test_eval. rewrite Hrun. cbn [mbind result_bind stats_val loss_val].
  rewrite (np_array_uniform B C).
  - cbn [mbind result_bind]. rewrite length_fmap, length_seq. reflexivity.
  - discriminate.
  - apply Forall_fmap, Forall_forall. intros k _.
    by destruct (item_at_shape val_loader net loss_func B C k Hne Hsh).
Qed.

(** C9.  On a loader without batches the restart does not help: the
    retried [next] raises [StopIteration] in the first iteration, and
    [test_eval] ends with that exception. *)
Theorem test_eval_empty_source
    (net : Tensor3 -> Mask -> Tensor2) (loss_func : Tensor2 -> Tensor2 -> Q) :
  next (iter []) = Raise StopIteration /\
  next_or_restart [] (iter []) = Raise StopIteration /\
  eval_body [] net loss_func (eval_init []) = Raise StopIteration /\
  test_eval [] net loss_func = Raise StopIteration.
Proof. repeat split. Qed.

(** ** Sums of matrices *)

Lemma ment_lookup (m : list (list Q)) (i j : nat) (r : list Q) (x : Q) :
  m !! i = Some r -> r !! j = Some x -> ment m i j = x.
Proof.
  intros Hr Hx. unfold ment.
  by rewrite (nth_lookup_Some _ _ _ _ Hr), (nth_lookup_Some _ _ _ _ Hx).
Qed.

Lemma mshape_lookup (B C : nat) (m : list (list Q)) (i j : nat) :
  mshape B C m -> i < B -> j < C ->
  exists r x, m !! i = Some r /\ r !! j = Some x.
Proof.
  intros [Hlen Hrows] Hi Hj.
  destruct (lookup_lt_is_Some_2 m i) as [r Hr]; [lia|].
  pose proof (Forall_lookup_1 _ _ _ _ Hrows Hr) as Hrl. simpl in Hrl.
  destruct (lookup_lt_is_Some_2 r j) as [x Hx]; [lia|].
  by exists r, x.
Qed.

Lemma mat_add_shape (B C : nat) (a b : list (list Q)) :
  mshape B C a -> mshape B C b -> mshape B C (mat_add a b).
Proof.
  intros [Ha Hra] [Hb Hrb]. unfold mat_add. split.
  - rewrite length_zip_with. lia.
  - apply Forall_lookup_2. intros i r Hr.
    apply lookup_zip_with_Some in Hr as (x & y & -> & Hx & Hy).
    pose proof (Forall_lookup_1 _ _ _ _ Hra Hx) as Hxl.
    pose proof (Forall_lookup_1 _ _ _ _ Hrb Hy) as Hyl.
    simpl in *. rewrite length_zip_with. lia.
Qed.

Lemma mat_add_entry (B C : nat) (a b : list (list Q)) (i j : nat) :
  mshape B C a -> mshape B C b -> i < B -> j < C ->
  ment (mat_add a b) i j = (ment a i j + ment b i j)%Q.
Proof.
  intros Ha Hb Hi Hj.
  destruct (mshape_lookup B C a i j Ha Hi Hj) as (ra & x & Hra & Hx).
  destruct (mshape_lookup B C b i j Hb Hi Hj) as (rb & y & Hrb & Hy).
  rewrite (ment_lookup a i j ra x), (ment_lookup b i j rb y) by done.
  apply (ment_lookup _ i j (zip_with Qplus ra rb)).
  - apply lookup_zip_with_Some. by exists ra, rb.
  - apply lookup_zip_with_Some. by exists x, y.
Qed.

Lemma fold_mat_add (B C : nat) (ms : list (list (list Q))) :
  Forall (mshape B C) ms ->
  forall m i j,
    mshape B C m -> i < B -> j < C ->
    mshape B C (fold_left mat_add ms m) /\
    ment (fold_left mat_add ms m) i j
    = fold_left Qplus ((fun m' => ment m' i j) <$> ms) (ment m i j).
Proof.
  induction 1 as [|m' ms Hm' _ IH]; intros m i j Hm Hi Hj; simpl; [done|].
  rewrite <- (mat_add_entry B C) by done.
  apply IH; [by apply mat_add_shape | done | done].
Qed.

Lemma fold_Qplus_start (l : list Q) (a : Q) :
  (fold_left Qplus l a == a + Qsum l)%Q.
Proof.
  unfold Qsum. revert a. induction l as [|x l IH]; intros a; simpl.
  - by rewrite Qplus_0_r.
  - rewrite (IH (a + x)%Q), (IH (0 + x)%Q). ring.
Qed.

Lemma Qsum_cons (x : Q) (l : list Q) : (Qsum (x :: l) == x + Qsum l)%Q.
Proof.
  unfold Qsum at 1. simpl. rewrite fold_Qplus_start. ring.
Qed.

(** Entry [(i, j)] of the sum along the first axis is the sum of the
    entries [(i, j)]. *)
Lemma sum_axis0_entry (B C : nat) (ms : list (list (list Q))) (i j : nat) :
  ms <> [] -> Forall (mshape B C) ms -> i < B -> j < C ->
  mshape B C (sum_axis0 ms) /\
  (ment (sum_axis0 ms) i j == Qsum ((fun m => ment m i j) <$> ms))%Q.
Proof.
  intros Hne Hms Hi Hj. destruct ms as [|m ms]; [done|].
  inversion Hms as [|? ? Hm Hrest]; subst. unfold sum_axis0.
  destruct (fold_mat_add B C ms Hrest m i j Hm Hi Hj) as [Hsh ->].
  split; [done|].
  by rewrite fold_Qplus_start, fmap_cons, Qsum_cons.
Qed.

Lemma ment_fmap (f : Q -> Q) (B C : nat) (m : list (list Q)) (i j : nat) :
  mshape B C m -> i < B -> j < C ->
  ment ((fun r : list Q => f <$> r) <$> m) i j = f (ment m i j).
Proof.
  intros Hm Hi Hj.
  destruct (mshape_lookup B C m i j Hm Hi Hj) as (r & x & Hr & Hx).
  rewrite (ment_lookup m i j r x) by done.
  apply (ment_lookup _ i j (f <$> r)).
  - by rewrite list_lookup_fmap, Hr.
  - by rewrite list_lookup_fmap, Hx.
Qed.

Lemma mshape_fmap (f : Q -> Q) (B C : nat) (m : list (list Q)) :
  mshape B C m -> mshape B C ((fun r : list Q => f <$> r) <$> m).
Proof.
  intros [Hlen Hrows]. split; [by rewrite length_fmap|].
  apply Forall_fmap. eapply Forall_impl; [exact Hrows|].
  intros r Hr. simpl. by rewrite length_fmap.
Qed.

(** ** The evaluator on the loader of [main] *)

Lemma collate_feat_singleton (s : Sample) :
  exists b pad_mask,
    collate_feat [s] = Ok (b, pad_mask) /\
    b_true_correction b =
      {| t_rows := [true_correction s]; t_dim := length (true_correction s) |}.
Proof.
  unfold collate_feat, pad_sequence, stack. simpl.
  rewrite !Nat.eqb_refl. simpl. by eexists _, _.
Qed.

Section SingleSampleBatches.
Variable net : Tensor3 -> Mask -> Tensor2.
Variable loss_func : Tensor2 -> Tensor2 -> Q.
Variable C : nat.

Local Abbreviation fits := (fits net C).

Lemma batch_result_singleton (s : Sample) :
  fits s ->
  exists d loss,
    batch_result net loss_func [s] = Ok (d, loss) /\
    mshape 1 C (t_rows d) /\ t_dim d = C /\
    (forall c, c < C ->
       ment (t_rows d) 0 c
       = (nth c (true_correction s) 0 - entry (prediction net s) 0 c)%Q).
Proof.
  intros (Htc & [Hp1 Hprows] & Hpd).
  destruct (collate_feat_singleton s) as (b & pad_mask & Hc & Hy).
  unfold prediction in *. unfold batch_result. rewrite Hc in *.
  cbn [mbind result_bind]. rewrite Hy.
  set (pred := net (b_features b) pad_mask) in *.
  unfold tsub, same_shape, shape0. cbn [t_rows t_dim length].
  rewrite Hp1, Hpd, Htc, !Nat.eqb_refl. cbn [andb mbind result_bind].
  eexists _, _. split; [reflexivity|]. cbn [t_rows t_dim].
  destruct (t_rows pred) as [|pr [|? ?]] eqn:Hrows; try discriminate Hp1.
  inversion Hprows as [|? ? Hprl _]; subst. simpl in Hprl.
  split.
  { split; [done|]. constructor; [|constructor].
    rewrite length_zip_with. lia. }
  split; [done|].
  intros c Hc'. unfold entry. rewrite Hrows.
  destruct (lookup_lt_is_Some_2 (true_correction s) c) as [x Hx]; [lia|].
  destruct (lookup_lt_is_Some_2 pr c) as [y Hy']; [lia|].
  rewrite (ment_lookup [pr] 0 c pr y), (nth_lookup_Some _ _ _ _ Hx) by done.
  apply (ment_lookup _ 0 c (zip_with Qminus (true_correction s) pr));
    [done|].
  apply lookup_zip_with_Some. by exists x, y.
Qed.

Lemma DataLoader1_evaluable (val_set : list Sample) :
  Forall fits val_set ->
  evaluable_shape (DataLoader1 val_set) net loss_func 1 C.
Proof.
  intros H. unfold evaluable_shape, DataLoader1. apply Forall_fmap.
  eapply Forall_impl; [exact H|]. intros s Hs. simpl.
  destruct (batch_result_singleton s Hs) as (d & loss & Hr & Hsh & Hd & _).
  exists d, loss. by destruct Hsh as [? Hrows].
Qed.

Lemma DataLoader1_drawn (val_set : list Sample) (k : nat) (s : Sample) :
  sample_at val_set k = Some s ->
  drawn_at (DataLoader1 val_set) k = [s].
Proof.
  intros Hs. unfold drawn_at, DataLoader1, sample_at in *.
  rewrite length_fmap. apply nth_lookup_Some.
  by rewrite list_lookup_fmap, Hs.
Qed.

Lemma sample_at_is_Some (val_set : list Sample) (k : nat) :
  val_set <> [] ->
  exists s, sample_at val_set k = Some s /\ s ∈ val_set.
Proof.
  intros Hne. unfold sample_at.
  destruct (lookup_lt_is_Some_2 val_set (k mod length val_set)) as [s Hs].
  - apply Nat.mod_upper_bound. by destruct val_set.
  - exists s. split; [done|]. by eapply list_elem_of_lookup_2.
Qed.

(** The array appended to [stats_val] at iteration [k]. *)
Lemma DataLoader1_item (val_set : list Sample) (k : nat) :
  val_set <> [] -> Forall fits val_set ->
  let d := fst (item_at (DataLoader1 val_set) net loss_func k) in
  mshape 1 C (t_rows d) /\
  (forall c, c < C -> Qabs (ment (t_rows d) 0 c) = abs_error net val_set k c).
Proof.
  intros Hne Hfit.
  destruct (sample_at_is_Some val_set k Hne) as (s & Hs & Hin).
  rewrite Forall_forall in Hfit.
  destruct (batch_result_singleton s (Hfit s Hin))
    as (d & loss & Hr & Hsh & _ & Hent).
  unfold item_at. rewrite (DataLoader1_drawn val_set k s Hs), Hr. simpl.
  split; [done|]. intros c Hc.
  unfold abs_error. by rewrite Hs, Hent.
Qed.
End SingleSampleBatches.

(** C7 (as amended).  On a source that yields one sample per batch (the
    loader of [main], in order) over a validation set of [N >= 1] samples
    with targets of length [C], and a network that returns one row of [C]
    numbers per batch, [test_eval] returns an error array of shape [1, C]
    whose entry [c] is the mean, over the 100 evaluated samples, of
    [|target - prediction|] in dimension [c]. *)
Theorem test_eval_mean_abs_error
    (val_set : list Sample) (net : Tensor3 -> Mask -> Tensor2)
    (loss_func : Tensor2 -> Tensor2 -> Q) (C : nat) :
  val_set <> [] -> Forall (fits net C) val_set ->
  exists acc loss,
    test_eval (DataLoader1 val_set) net loss_func = Ok (acc, loss) /\
    shape0 acc = 1 /\ t_dim acc = C /\ rect2 acc /\
    (forall c, c < C ->
       (entry acc 0 c ==
        Qsum ((fun k => abs_error net val_set k c) <$> seq 0 100)
        / inject_Z 100)%Q).
Proof.
  intros Hne Hfit.
  set (loader := DataLoader1 val_set).
  assert (loader <> []) as Hlne by (subst loader; by destruct val_set).
  pose proof (DataLoader1_evaluable net loss_func C val_set Hfit) as Hsh.
  fold loader in Hsh.
  pose proof (evaluable_shape_evaluable _ _ _ 1 C Hsh) as Hev.
  destruct (eval_loop_100 loader net loss_func Hlne Hev) as [g Hrun].
  set (stats := (fun i => fst (item_at loader net loss_func i)) <$> seq 0 100)
    in *.
  set (ms := (fun m : list (list Q) => (fun r : list Q => Qabs <$> r) <$> m)
               <$> (t_rows <$> stats)).
  assert (Forall (mshape 1 C) ms) as Hms.
  { subst ms stats. rewrite <- !list_fmap_compose.
    apply Forall_fmap, Forall_forall. intros k _. simpl.
    apply mshape_fmap. by apply DataLoader1_item. }
  assert (ms <> []) as Hmsne.
  { intros E. apply (f_equal length) in E. subst ms stats.
    rewrite !length_fmap, length_seq in E. discriminate E. }
  assert (mshape 1 C (sum_axis0 ms)) as Hsum.
  { destruct C as [|C'].
    - destruct ms as [|m ms']; [done|]. unfold sum_axis0.
      inversion Hms as [|? ? Hm Hrest]; subst.
      clear -Hm Hrest. revert m Hm.
      induction Hrest as [|m' ms' Hm' _ IH]; intros m Hm; [done|].
      simpl. apply IH. by apply mat_add_shape.
    - by apply (sum_axis0_entry 1 (S C') ms 0 0); [| |lia|lia]. }
  eexists _, _. split.
  { unfold test_eval. rewrite Hrun. cbn [mbind result_bind stats_val loss_val].
    rewrite (np_array_uniform 1 C).
    - cbn [mbind result_bind]. reflexivity.
    - subst stats. intros E. apply (f_equal length) in E.
      rewrite length_fmap, length_seq in E. discriminate E.
    - subst stats. apply Forall_fmap, Forall_forall. intros k _.
      by destruct (item_at_shape loader net loss_func 1 C k Hlne Hsh). }
  unfold np_mean_axis0, np_abs. cbn [size3 data3 t_rows t_dim shape0].
  fold ms.
  pose proof (mshape_fmap
                (fun v => v / inject_Z (Z.of_nat (length stats)))%Q
                1 C _ Hsum) as [Hlen Hrows].
  split; [exact Hlen|]. split; [done|]. split; [exact Hrows|].
  intros c Hc. unfold entry. cbn [t_rows].
  rewrite (ment_fmap _ 1 C) by (done || lia).
  destruct (sum_axis0_entry 1 C ms 0 c Hmsne Hms) as [_ ->]; [lia | done |].
  assert ((fun m => ment m 0 c) <$> ms
          = (fun k => abs_error net val_set k c) <$> seq 0 100) as ->.
  { subst ms stats. rewrite <- !list_fmap_compose.
    apply list_fmap_ext. intros i k _. simpl.
    destruct (DataLoader1_item net loss_func C val_set k Hne Hfit)
      as [Hd Habs].
    rewrite (ment_fmap Qabs 1 C) by (done || lia).
    by apply Habs. }
  subst stats. rewrite length_fmap, length_seq. reflexivity.
Qed.

Lemma test_eval_100_iterations_witness :
  exists acc loss,
    test_eval (DataLoader1 ex_val_set) (ex_net 0) MSELoss = Ok (acc, loss).
Proof.
  destruct (test_eval_100_iterations
              (DataLoader1 ex_val_set) (ex_net 0) MSELoss 1 1)
    as (st & acc & _ & _ & _ & _ & Ht).
  - discriminate.
  - unfold evaluable_shape, DataLoader1, ex_val_set. cbn [fmap list_fmap].
    repeat apply Forall_cons_2; try apply Forall_nil_2.
    all: eexists _, _; split; [vm_compute; reflexivity|].
    all: split; reflexivity.
  - exists acc. eexists. exact Ht.
Defined.

Lemma test_eval_mean_abs_error_witness :
  exists acc loss,
    test_eval (DataLoader1 ex_val_set) (ex_net 0) MSELoss = Ok (acc, loss) /\
    shape0 acc = 1.
Proof.
  destruct (test_eval_mean_abs_error ex_val_set (ex_net 0) MSELoss 1)
    as (acc & loss & Ht & Hs & _).
  - discriminate.
  - unfold ex_val_set.
    repeat apply Forall_cons_2; try apply Forall_nil_2.
    all: split; [reflexivity|]; split; [|reflexivity].
    all: split; [reflexivity|]; repeat constructor.
  - exists acc, loss. split; [exact Ht | exact Hs].
Defined.

(** C7 as stated fails on a source that yields batches of more than one
    sample: on one batch of two samples with targets 1 and 2 and
    predictions 0, [test_eval] returns an array of two rows, the errors 1
    and 2 of the two batch positions, and not the mean 3/2 of
    [|target - prediction|] over the evaluated samples. *)
Lemma test_eval_two_sample_batch :
  exists acc loss,
    test_eval [[ex_s 1 1%Q; ex_s 1 2%Q]] ex_net2 MSELoss = Ok (acc, loss) /\
    shape0 acc = 2 /\ t_dim acc = 1 /\
    (entry acc 0 0 == 1)%Q /\ (entry acc 1 0 == 2)%Q /\
    ~ (entry acc 0 0 == 3 # 2)%Q.
Proof.
  eexists _, _. split; [vm_compute; reflexivity|].
  split; [reflexivity|]. split; [reflexivity|].
  split; [vm_compute; reflexivity|]. split; [vm_compute; reflexivity|].
  vm_compute. discriminate.
Qed.

(** ** The checkpoint policy of [main] *)

Lemma Qlt_bool_iff (x y : Q) : Qlt_bool x y = true <-> (x < y)%Q.
Proof.
  unfold Qlt_bool. rewrite negb_true_iff. split.
  - intros H. apply Qnot_le_lt. intros Hle.
    apply Qle_bool_iff in Hle. congruence.
  - intros H. destruct (Qle_bool y x) eqn:E; [|done].
    apply Qle_bool_iff in E. by apply Qlt_not_le in H.
Qed.

(** The assignment of lines 164-165 keeps the smaller of the two. *)
Lemma min_acc_update (score best : Q) :
  (if Qlt_bool score best then score else best) = Qmin best score.
Proof.
  unfold Qlt_bool, Qle_bool, Qmin, GenericMinMax.gmin, Qcompare, Z.leb.
  by destruct (Qnum best * QDen score ?= Qnum score * QDen best)%Z.
Qed.

Section MainFacts.
Context {Model : Type}.
Variable forward : Model -> Tensor3 -> Mask -> Tensor2.
Variable loss_func : Tensor2 -> Tensor2 -> Q.
Variable train_phase : Model -> Model.
Variable val_loader : Loader.
Variable net0 : Model.

Local Abbreviation run := (main_loop forward loss_func train_phase val_loader).
Local Abbreviation epoch_step :=
  (main_epoch forward loss_func train_phase val_loader).
Local Abbreviation params := (net_after train_phase net0).
Local Abbreviation score :=
  (epoch_score forward loss_func train_phase val_loader net0).
Local Abbreviation thr :=
  (threshold forward loss_func train_phase val_loader net0).
Local Abbreviation better :=
  (improves forward loss_func train_phase val_loader net0).
Local Abbreviation saved :=
  (saved_upto forward loss_func train_phase val_loader net0).
Local Abbreviation state :=
  (state_after forward loss_func train_phase val_loader net0).
Local Abbreviation returns :=
  (evaluations_return forward loss_func train_phase val_loader net0).

Lemma main_loop_S (n : nat) :
  run (S n) net0 = st ← run n net0; epoch_step st n.
Proof.
  unfold main_loop. by rewrite seq_S, fold_left_app.
Qed.

Lemma threshold_S (n : nat) : thr (S n) = Qmin (thr n) (score n).
Proof.
  unfold threshold. by rewrite seq_S, fmap_app, fold_left_app.
Qed.

Lemma saved_upto_S (n : nat) :
  saved (S n) = saved n ++ (if better n then [n] else []).
Proof.
  unfold saved_upto. rewrite seq_S, List.filter_app. simpl.
  by destruct (better n).
Qed.

Lemma main_epoch_state (n : nat) (r : Tensor2 * Q) :
  test_eval val_loader (forward (params n)) loss_func = Ok r ->
  epoch_step (state n) n = Ok (state (S n)).
Proof.
  intros Ht. destruct r as [mean_acc test_loss].
  assert (score n = np_sum mean_acc) as Hscore
    by (unfold epoch_score; by rewrite Ht).
  unfold main_epoch. cbn [net_params min_acc weights_file saved_epochs state_after].
  change (train_phase (Nat.iter n train_phase net0)) with (params n).
  rewrite Ht. cbn [mbind result_bind]. rewrite <- Hscore.
  change (Qlt_bool (score n) (thr n)) with (better n).
  unfold state_after. rewrite saved_upto_S, threshold_S, <- min_acc_update.
  change (Qlt_bool (score n) (thr n)) with (better n).
  destruct (better n).
  - by rewrite last_snoc.
  - by rewrite app_nil_r.
Qed.

Lemma main_loop_state (n : nat) : returns n -> run n net0 = Ok (state n).
Proof.
  induction n as [|n IH]; intros Hret; [done|].
  rewrite main_loop_S, IH by (intros e He; apply Hret; lia).
  cbn [mbind result_bind].
  destruct (Hret n) as [r Hr]; [lia|]. by eapply main_epoch_state.
Qed.

Lemma main_loop_returns (n : nat) (st : TrainState Model) :
  run n net0 = Ok st -> returns n /\ st = state n.
Proof.
  revert st. induction n as [|n IH]; intros st Hrun.
  - split; [intros e He; lia|]. by injection Hrun as <-.
  - rewrite main_loop_S in Hrun.
    destruct (run n net0) as [st'|err] eqn:Hn; [|discriminate Hrun].
    destruct (IH st' eq_refl) as [Hret ->]. cbn [mbind result_bind] in Hrun.
    assert (exists r, test_eval val_loader (forward (params n)) loss_func = Ok r)
      as [r Hr].
    { unfold main_epoch in Hrun.
      cbn [net_params state_after] in Hrun.
      change (train_phase (Nat.iter n train_phase net0)) with (params n) in Hrun.
      destruct (test_eval val_loader (forward (params n)) loss_func) as [r|err];
        [by exists r | discriminate Hrun]. }
    split.
    + intros e He. destruct (decide (e = n)) as [->|Hne]; [by exists r|].
      apply Hret. lia.
    + rewrite (main_epoch_state n r Hr) in Hrun. by injection Hrun as <-.
Qed.

Lemma saved_upto_elem (n e : nat) :
  e ∈ saved n <-> e < n /\ (score e < thr e)%Q.
Proof.
  unfold saved_upto. rewrite list_elem_of_In, List.filter_In, in_seq.
  unfold improves. rewrite Qlt_bool_iff. intuition lia.
Qed.

(** Scores 5.0, 6.0, 4.9: the checkpoint is written after the first and
    the third epoch only. *)
Lemma scenario_5_6_49 :
  (score 0%nat == 5)%Q -> (score 1%nat == 6)%Q ->
  (score 2%nat == 49 # 10)%Q ->
  saved 3 = [0; 2] /\ (thr 3%nat == 49 # 10)%Q.
Proof.
  intros H0 H1 H2.
  assert (thr 0 = 1000000%Q) as E0 by done.
  assert (better 0 = true) as B0.
  { apply Qlt_bool_iff. rewrite E0, H0. reflexivity. }
  assert (thr 1%nat == 5)%Q as E1.
  { rewrite threshold_S, E0, Q.min_r; [done|]. rewrite H0. discriminate. }
  assert (better 1 = false) as B1.
  { apply not_true_is_false. intros B%Qlt_bool_iff.
    rewrite E1, H1 in B. discriminate B. }
  assert (thr 2%nat == 5)%Q as E2.
  { rewrite threshold_S, Q.min_l; [done|]. rewrite E1, H1. discriminate. }
  assert (better 2 = true) as B2.
  { apply Qlt_bool_iff. rewrite E2, H2. reflexivity. }
  split.
  - unfold saved_upto. simpl. by rewrite B0, B1, B2.
  - rewrite threshold_S, Q.min_r; [done|]. rewrite E2, H2. discriminate.
Qed.
End MainFacts.

(** C4 (as amended).  In a run of the epoch loop whose evaluations return,
    a checkpoint is written after an epoch exactly when the score of that
    epoch is strictly lower than the running threshold [min_acc], which
    starts at 1000000 and is the minimum of 1000000 and the scores of all
    earlier epochs; the threshold then becomes that score, and the file
    holds the parameters of the last such epoch.  Scores 5.0, 6.0, 4.9
    give writes after the first and third epoch only. *)
Theorem main_checkpoint_policy
    {Model : Type} (forward : Model -> Tensor3 -> Mask -> Tensor2)
    (loss_func : Tensor2 -> Tensor2 -> Q) (train_phase : Model -> Model)
    (val_loader : Loader) (net0 : Model) (n : nat) :
  let score := epoch_score forward loss_func train_phase val_loader net0 in
  let thr := threshold forward loss_func train_phase val_loader net0 in
  evaluations_return forward loss_func train_phase val_loader net0 n ->
  exists st,
    main_loop forward loss_func train_phase val_loader n net0 = Ok st /\
    (forall e, e ∈ saved_epochs st <-> e < n /\ (score e < thr e)%Q) /\
    thr 0 = 1000000%Q /\
    (forall e, thr (S e) = Qmin (thr e) (score e)) /\
    (forall e, (score e < thr e)%Q -> thr (S e) = score e) /\
    min_acc st = thr n /\
    weights_file st = net_after train_phase net0 <$> last (saved_epochs st) /\
    (n = 3 ->
     (score 0%nat == 5)%Q -> (score 1%nat == 6)%Q ->
     (score 2%nat == 49 # 10)%Q ->
     saved_epochs st = [0; 2] /\ (min_acc st == 49 # 10)%Q).
Proof.
  intros score thr Hret.
  exists (state_after forward loss_func train_phase val_loader net0 n).
  split; [by apply main_loop_state|].
  split; [intros e; apply saved_upto_elem|].
  split; [done|].
  split; [intros e; apply threshold_S|].
  split.
  { intros e He. subst thr. rewrite threshold_S, <- min_acc_update.
    apply Qlt_bool_iff in He. fold score. by rewrite He. }
  split; [done|]. split; [done|].
  intros -> H0 H1 H2. by apply scenario_5_6_49.
Qed.

Lemma main_checkpoint_policy_witness :
  exists st,
    demo_main [5%Q; 6%Q; (49 # 10)%Q] 3 = Ok st /\ saved_epochs st = [0; 2].
Proof.
  destruct (main_checkpoint_policy
              (demo_forward [5%Q; 6%Q; (49 # 10)%Q]) MSELoss S
              (DataLoader1 demo_val_set) 0 3)
    as (st & Hrun & _ & _ & _ & _ & _ & _ & Hsc).
  - intros e He. destruct e as [|[|[|e]]]; [| | |lia].
    all: eexists; vm_compute; reflexivity.
  - exists st. split; [exact Hrun|].
    apply Hsc; [reflexivity | | |]; vm_compute; reflexivity.
Defined.

(** C4 as stated fails: with scores 2000000 and 1500000 the second epoch
    is strictly better than the best score seen so far, and no checkpoint
    is written. *)
Lemma main_checkpoint_not_best_seen :
  exists st,
    demo_main [2000000%Q; 1500000%Q] 2 = Ok st /\
    (demo_score [2000000%Q; 1500000%Q] 1
     < demo_score [2000000%Q; 1500000%Q] 0)%Q /\
    saved_epochs st = [] /\ weights_file st = None.
Proof.
  eexists. split; [vm_compute; reflexivity|].
  split; [vm_compute; reflexivity|]. split; reflexivity.
Qed.

(** C10.  [min_acc] starts at the number 1000000: when the first epoch has
    a score of 1000000 or more, no checkpoint is written after it, and the
    threshold stays 1000000. *)
Theorem main_first_epoch_threshold
    {Model : Type} (forward : Model -> Tensor3 -> Mask -> Tensor2)
    (loss_func : Tensor2 -> Tensor2 -> Q) (train_phase : Model -> Model)
    (val_loader : Loader) (net0 : Model) (mean_acc : Tensor2) (test_loss : Q) :
  test_eval val_loader (forward (train_phase net0)) loss_func
    = Ok (mean_acc, test_loss) ->
  (1000000 <= np_sum mean_acc)%Q ->
  min_acc (main_init net0) = 1000000%Q /\
  main_epoch forward loss_func train_phase val_loader (main_init net0) 0
    = Ok {| net_params := train_phase net0; min_acc := 1000000%Q;
            weights_file := None; saved_epochs := [] |} /\
  (forall n st,
      main_loop forward loss_func train_phase val_loader n net0 = Ok st ->
      0 ∉ saved_epochs st).
Proof.
  intros Ht Hge. split; [done|]. split.
  - unfold main_epoch. cbn [main_init net_params min_acc].
    rewrite Ht. cbn [mbind result_bind].
    destruct (Qlt_bool (np_sum mean_acc) 1000000) eqn:E; [|done].
    apply Qlt_bool_iff in E. by apply Qlt_not_le in E.
  - intros n st Hrun.
    apply main_loop_returns in Hrun as [_ ->]. cbn [saved_epochs state_after].
    rewrite saved_upto_elem. intros [_ Hlt].
    unfold epoch_score, net_after in Hlt.
    change (Nat.iter 1 train_phase net0) with (train_phase net0) in Hlt.
    rewrite Ht in Hlt. by apply Qlt_not_le in Hlt.
Qed.

Lemma main_first_epoch_threshold_witness :
  demo_main [2000000%Q] 1
  = Ok {| net_params := 1; min_acc := 1000000%Q;
          weights_file := None; saved_epochs := [] |}.
Proof.
  eassert (test_eval (DataLoader1 demo_val_set) (demo_forward [2000000%Q] 1)
                     MSELoss = Ok (_, _)) as Ht
    by (vm_compute; reflexivity).
  refine (proj1 (proj2 (main_first_epoch_threshold
                          (demo_forward [2000000%Q]) MSELoss S
                          (DataLoader1 demo_val_set) 0 _ _ Ht _))).
  vm_compute. discriminate.
Defined.

(** * Further properties of the collator *)

(** The longest sample comes first. *)
Lemma sorted_head_max (batch : list Sample) (s : Sample) :
  sorted_desc seq_len batch !! 0 = Some s ->
  seq_len s = max_len (features <$> batch).
Proof.
  intros H0.
  assert (batch <> []) as Hne by (intros ->; discriminate H0).
  pose proof (seq_len_le_max batch s (sorted_lookup_elem _ _ _ H0)) as Hle.
  destruct (max_len_attained (features <$> batch)) as (t & Ht & E);
    [by destruct batch|].
  apply list_elem_of_fmap in Ht as (s' & -> & Hs').
  rewrite <- (sorted_desc_perm seq_len batch) in Hs'.
  apply list_elem_of_lookup in Hs' as [j Hj].
  pose proof (sorted_desc_lookup_le seq_len batch 0 j s s' (Nat.le_0_l j) H0 Hj).
  unfold seq_len in *. lia.
Qed.

(** X1.  The sample at sorted position 0 has length [L_max], and its mask
    row is all [False]: the longest sequence of a batch is never padded. *)
Theorem collate_feat_longest_first (D C : nat) (batch : list Sample) :
  batch <> [] -> Forall (wf_sample D C) batch ->
  exists b mask s,
    collate_feat batch = Ok (b, mask) /\
    sorted_desc seq_len batch !! 0 = Some s /\
    seq_len s = max_len (features <$> batch) /\
    mask !! 0 = Some (replicate (max_len (features <$> batch)) false).
Proof.
  intros Hne Hwf.
  destruct (sorted_desc seq_len batch) as [|s sb] eqn:Hsb.
  { by apply sorted_desc_nil_inv in Hsb. }
  assert (sorted_desc seq_len batch !! 0 = Some s) as H0 by (by rewrite Hsb).
  pose proof (sorted_head_max batch s H0) as Hmax.
  eexists _, _, s. split; [by apply (collate_feat_wf D C)|].
  split; [by rewrite <- Hsb|]. split; [done|].
  rewrite !list_lookup_fmap, H0. simpl.
  change (shape0 (features s)) with (seq_len s).
  by rewrite Hmax, mask_row_full.
Qed.

Lemma collate_feat_longest_first_witness :
  exists b mask,
    collate_feat ex_batch = Ok (b, mask) /\ mask !! 0 = Some [false; false; false].
Proof.
  destruct (collate_feat_longest_first 2 1 ex_batch)
    as (b & mask & s & Hc & _ & _ & Hm).
  - done.
  - repeat constructor.
  - by exists b, mask.
Defined.

(** X2.  The mask is a staircase: a position padded in row [i] is padded in
    every later row [j >= i] of the batch. *)
Theorem collate_feat_mask_staircase (D C : nat) (batch : list Sample) :
  batch <> [] -> Forall (wf_sample D C) batch ->
  exists b mask,
    collate_feat batch = Ok (b, mask) /\
    (forall i j l,
        i <= j -> j < length batch ->
        mask_at mask i l = Some true -> mask_at mask j l = Some true).
Proof.
  intros Hne Hwf. eexists _, _. split; [by apply (collate_feat_wf D C)|].
  intros i j l Hij Hj Hi. unfold mask_at in *.
  rewrite !list_lookup_fmap in *.
  destruct (sorted_desc seq_len batch !! i) as [s|] eqn:Hsi; [|discriminate Hi].
  destruct (lookup_lt_is_Some_2 (sorted_desc seq_len batch) j) as [s' Hsj].
  { by rewrite sorted_desc_length. }
  rewrite Hsj. simpl in *.
  pose proof (sorted_desc_lookup_le seq_len batch i j s s' Hij Hsi Hsj) as Hle.
  pose proof (seq_len_le_max batch s (sorted_lookup_elem _ _ _ Hsi)) as Hs.
  pose proof (seq_len_le_max batch s' (sorted_lookup_elem _ _ _ Hsj)) as Hs'.
  unfold seq_len in *.
  assert (l < max_len (features <$> batch)) as Hl.
  { apply lookup_lt_Some in Hi. unfold mask_row in Hi.
    rewrite length_app, !length_replicate in Hi. lia. }
  rewrite mask_row_lookup in Hi by done. rewrite mask_row_lookup by done.
  injection Hi as Hi. apply bool_decide_eq_true_1 in Hi.
  f_equal. apply bool_decide_eq_true_2. lia.
Qed.

Lemma collate_feat_mask_staircase_witness :
  exists b mask,
    collate_feat ex_batch = Ok (b, mask) /\
    (mask_at mask 1 2 = Some true -> mask_at mask 3 2 = Some true).
Proof.
  destruct (collate_feat_mask_staircase 2 1 ex_batch) as (b & mask & Hc & Hm).
  - done.
  - repeat constructor.
  - exists b, mask. split; [done|]. apply Hm; simpl; lia.
Defined.

(** X3.  When every sample has at least one row, position 0 of every mask
    row is [False]: no sample of the batch is masked out completely. *)
Theorem collate_feat_no_row_fully_masked (D C : nat) (batch : list Sample) :
  batch <> [] -> Forall (wf_sample D C) batch ->
  Forall (fun s => 0 < seq_len s) batch ->
  exists b mask,
    collate_feat batch = Ok (b, mask) /\
    length mask = length batch /\
    (forall i, i < length batch -> mask_at mask i 0 = Some false).
Proof.
  intros Hne Hwf Hpos. eexists _, _. split; [by apply (collate_feat_wf D C)|].
  split; [by rewrite !length_fmap, sorted_desc_length|].
  intros i Hi. unfold mask_at. rewrite !list_lookup_fmap.
  destruct (lookup_lt_is_Some_2 (sorted_desc seq_len batch) i) as [s Hs].
  { by rewrite sorted_desc_length. }
  rewrite Hs. simpl.
  pose proof (sorted_lookup_elem _ _ _ Hs) as Hin.
  pose proof (seq_len_le_max batch s Hin) as Hle.
  rewrite Forall_forall in Hpos. pose proof (Hpos s Hin) as Hp.
  unfold seq_len in *.
  rewrite mask_row_lookup by lia.
  f_equal. apply bool_decide_eq_false_2. lia.
Qed.

Lemma collate_feat_no_row_fully_masked_witness :
  exists b mask,
    collate_feat ex_distinct = Ok (b, mask) /\ mask_at mask 2 0 = Some false.
Proof.
  destruct (collate_feat_no_row_fully_masked 2 1 ex_distinct)
    as (b & mask & Hc & _ & Hm).
  - done.
  - repeat constructor.
  - repeat constructor.
  - exists b, mask. split; [done|]. apply Hm. simpl. lia.
Defined.

Lemma real_len_mask_row (lmax len : nat) : real_len (mask_row lmax len) = len.
Proof.
  unfold real_len, mask_row. rewrite List.filter_app, length_app.
  assert (forall n, List.filter negb (replicate n false) = replicate n false) as ->.
  { induction n as [|n IH]; simpl; [done | by rewrite IH]. }
  assert (forall n, List.filter negb (replicate n true) = []) as ->.
  { induction n as [|n IH]; simpl; [done | by rewrite IH]. }
  rewrite length_replicate. simpl. lia.
Qed.

Lemma column_padded (d lmax i : nat) (seqs : list Tensor2) (t : Tensor2)
    (sz : nat * nat * nat) :
  seqs !! i = Some t ->
  column {| data3 := padded d lmax seqs; size3 := sz |} i
  = (fun l => nth l (t_rows t) (zero_row d)) <$> seq 0 lmax.
Proof.
  intros Ht. unfold column, padded. cbn [data3].
  induction (seq 0 lmax) as [|l ls IH]; [done|].
  cbn [fmap list_fmap omap list_omap]. fold (@fmap list list_fmap).
  rewrite list_lookup_fmap, Ht. simpl. f_equal. exact IH.
Qed.

Lemma fmap_nth_seq (rows : list (list Q)) (z : list Q) :
  (fun l => nth l rows z) <$> seq 0 (length rows) = rows.
Proof.
  apply list_eq. intros l. rewrite list_lookup_fmap.
  destruct (decide (l < length rows)) as [Hl|Hl].
  - rewrite lookup_seq_lt by done. simpl.
    destruct (nth_lookup_or_length rows l z) as [H|H]; [done | lia].
  - rewrite lookup_seq_ge by lia. simpl. symmetry.
    apply lookup_ge_None. lia.
Qed.

(** X4.  Padding loses nothing and the mask tells how to undo it: the
    number of unmasked positions of mask row [i] is the length of the
    sample at sorted position [i], and that many leading rows of column
    [i] of the padded features are exactly the features of that sample. *)
Theorem collate_feat_unpad (D C : nat) (batch : list Sample) :
  batch <> [] -> Forall (wf_sample D C) batch ->
  exists b mask,
    collate_feat batch = Ok (b, mask) /\
    (forall i s,
        sorted_desc seq_len batch !! i = Some s ->
        exists row,
          mask !! i = Some row /\
          real_len row = seq_len s /\
          take (real_len row) (column (b_features b) i) = t_rows (features s)).
Proof.
  intros Hne Hwf. eexists _, _. split; [by apply (collate_feat_wf D C)|].
  intros i s Hi. eexists. split; [by rewrite !list_lookup_fmap, Hi|].
  rewrite real_len_mask_row. split; [done|]. cbn [b_features].
  rewrite (column_padded _ _ _ _ (features s)) by (by rewrite list_lookup_fmap, Hi).
  pose proof (seq_len_le_max batch s (sorted_lookup_elem _ _ _ Hi)) as Hle.
  unfold seq_len, shape0 in *.
  rewrite <- fmap_take, take_seq, Nat.min_l by done.
  apply fmap_nth_seq.
Qed.

Lemma collate_feat_unpad_witness :
  exists b mask,
    collate_feat ex_batch = Ok (b, mask) /\
    take 2 (column (b_features b) 1) = [[1%Q; 1%Q]; [1%Q; 1%Q]].
Proof.
  destruct (collate_feat_unpad 2 1 ex_batch) as (b & mask & Hc & Hu).
  - done.
  - repeat constructor.
  - exists b, mask. split; [done|].
    destruct (Hu 1 (ex_s 2 1%Q) eq_refl) as (row & _ & Hlen & Htake).
    by rewrite Hlen in Htake.
Defined.

(** Two lists in descending key order with the same elements are equal
    when no key occurs twice. *)
Lemma sorted_desc_unique {A : Type} (key : A -> nat) (l1 l2 : list A) :
  StronglySorted (desc key) l1 -> StronglySorted (desc key) l2 ->
  l1 ≡ₚ l2 -> NoDup (key <$> l1) -> l1 = l2.
Proof.
  intros H1. revert l2.
  induction H1 as [|x l1 Hs1 IH Hx]; intros l2 H2 Hp Hnd.
  - by apply Permutation_nil_l in Hp.
  - destruct H2 as [|y l2 Hs2 Hy].
    + by apply Permutation_nil_r in Hp.
    + apply NoDup_cons in Hnd as [Hxn Hnd].
      assert (x = y) as <-.
      { assert (x ∈ y :: l2) as Hxin by (rewrite <- Hp; by left).
        assert (y ∈ x :: l1) as Hyin by (rewrite Hp; by left).
        apply elem_of_cons in Hxin as [?|Hxin]; [done|].
        apply elem_of_cons in Hyin as [?|Hyin]; [done|].
        rewrite Forall_forall in Hx, Hy.
        pose proof (Hx y Hyin) as Hle1. pose proof (Hy x Hxin) as Hle2.
        unfold desc in *. exfalso. apply Hxn.
        replace (key x) with (key y) by lia.
        by apply list_elem_of_fmap_2. }
      f_equal. apply IH; [done | by apply Permutation_cons_inv in Hp | done].
Qed.

(** X5.  When the samples have pairwise distinct lengths, the order in
    which they are handed to the collator does not matter. *)
Theorem collate_feat_order_irrelevant (batch batch' : list Sample) :
  batch ≡ₚ batch' -> NoDup (seq_len <$> batch) ->
  collate_feat batch = collate_feat batch'.
Proof.
  intros Hp Hnd. unfold collate_feat.
  rewrite (sorted_desc_unique seq_len
             (sorted_desc seq_len batch) (sorted_desc seq_len batch')); [done|..].
  - apply sorted_desc_sorted.
  - apply sorted_desc_sorted.
  - by rewrite !sorted_desc_perm.
  - by rewrite sorted_desc_perm.
Qed.

Lemma collate_feat_order_irrelevant_witness :
  collate_feat ex_distinct
  = collate_feat [ex_s 1 2%Q; ex_s 3 1%Q; ex_s 2 3%Q].
Proof.
  apply collate_feat_order_irrelevant.
  - apply Permutation_swap.
  - unfold ex_distinct. cbn [fmap list_fmap]. unfold seq_len, shape0, ex_s.
    cbn [features t_rows]. rewrite !length_replicate.
    apply NoDup_ListNoDup. repeat constructor; simpl; intuition lia.
Defined.

(** * Further properties of the evaluator *)

Lemma pad_sequence_error (seqs : list Tensor2) (e : pyerr) :
  pad_sequence seqs = Raise e -> e = RuntimeError.
Proof.
  unfold pad_sequence. destruct seqs as [|s0 seqs]; [congruence|].
  destruct (forallb _ _); congruence.
Qed.

Lemma stack_error (vs : list (list Q)) (e : pyerr) :
  stack vs = Raise e -> e = ValueError.
Proof.
  unfold stack. destruct vs as [|v0 vs]; [congruence|].
  destruct (forallb _ _); congruence.
Qed.

(** Collation never ends with [StopIteration]. *)
Lemma collate_feat_error (batch : list Sample) (e : pyerr) :
  collate_feat batch = Raise e -> e = RuntimeError \/ e = ValueError.
Proof.
  unfold collate_feat.
  destruct (pad_sequence _) as [fp|e1] eqn:Hp; cbn [mbind result_bind].
  - destruct (size3 fp) as [[L N] dim].
    destruct (stack (true_correction <$> _)) as [c|e2] eqn:Hc;
      cbn [mbind result_bind].
    + destruct (stack (guess <$> _)) as [g|e3] eqn:Hg;
        cbn [mbind result_bind]; [discriminate|].
      intros [= <-]. right. by eapply stack_error.
    + intros [= <-]. right. by eapply stack_error.
  - intros [= <-]. left. by eapply pad_sequence_error.
Qed.

Section TestEvalClosedForm.
Variable val_loader : Loader.
Variable net : Tensor3 -> Mask -> Tensor2.
Variable loss_func : Tensor2 -> Tensor2 -> Q.

Local Abbreviation body := (eval_body val_loader net loss_func).
Local Abbreviation loop := (eval_loop val_loader net loss_func).
Local Abbreviation outcome :=
  (fun k => batch_result net loss_func (drawn_at val_loader k)).

(** One iteration in terms of the outcome of lines 66-74 on the batch
    of iteration [k], whether it returns or raises. *)
Lemma eval_body_outcome (st : EvalState) (p k : nat) :
  val_loader <> [] ->
  generator st = drop p val_loader ->
  p <= length val_loader ->
  p mod length val_loader = k mod length val_loader ->
  exists p',
    p' <= length val_loader /\
    p' mod length val_loader = S k mod length val_loader /\
    body st =
      '(d, l) ← outcome k;
      Ok {| generator := drop p' val_loader;
            stats_val := stats_val st ++ [d];
            loss_val := (loss_val st + l)%Q |}.
Proof.
  intros Hne Hg Hp Hmod.
  set (n := length val_loader) in *.
  assert (0 < n) as Hn by (subst n; destruct val_loader; simpl; [done|lia]).
  pose proof (drawn_at_lookup val_loader k Hne) as Hdrawn. fold n in Hdrawn.
  assert (exists q, q < n /\ q = k mod n /\
            next_or_restart val_loader (generator st)
            = b ← collate_feat (drawn_at val_loader k);
              Ok (b, drop (S q) val_loader)) as (q & Hq & Hqk & Hnext).
  { assert (forall g,
              match (b ← collate_feat (drawn_at val_loader k);
                     Ok (b, g) : result (Batch * Mask * Generator)) with
              | Raise StopIteration => next (iter val_loader)
              | r => r
              end = b ← collate_feat (drawn_at val_loader k); Ok (b, g)) as Hkeep.
    { intros g. destruct (collate_feat (drawn_at val_loader k)) as [b|e] eqn:Hc;
        [done|]. apply collate_feat_error in Hc as [-> | ->]; done. }
    destruct (decide (p < n)) as [Hlt|Hge].
    - exists p. rewrite Nat.mod_small in Hmod by done.
      split; [done|]. split; [done|].
      rewrite Hmod in *. unfold next_or_restart. rewrite Hg.
      rewrite (next_drop _ _ _ Hdrawn). apply Hkeep.
    - assert (p = n) as -> by lia.
      rewrite Nat.Div0.mod_same in Hmod.
      exists 0. split; [done|]. split; [done|].
      unfold next_or_restart. rewrite Hg. subst n. rewrite next_drop_all.
      unfold iter. rewrite <- Hmod in Hdrawn.
      change (next val_loader) with (next (drop 0 val_loader)).
      by rewrite (next_drop val_loader 0 _ Hdrawn). }
  exists (S q). split; [lia|]. split.
  { rewrite Hqk. rewrite <- (Nat.add_1_r (k mod n)), <- (Nat.add_1_r k).
    by rewrite Nat.Div0.add_mod_idemp_l. }
  unfold eval_body, batch_result. rewrite Hnext.
  destruct (collate_feat (drawn_at val_loader k)) as [[b pad_mask]|e];
    cbn [mbind result_bind]; [|done].
  by destruct (tsub _ _).
Qed.

(** [j] iterations from iteration [k] on accumulate the outcomes of the
    iterations [k], ..., [k + j - 1]. *)
Lemma eval_loop_accumulate (j : nat) :
  val_loader <> [] ->
  forall (st : EvalState) (p k : nat),
    generator st = drop p val_loader ->
    p <= length val_loader ->
    p mod length val_loader = k mod length val_loader ->
    (st' ← loop j st; Ok (stats_val st', loss_val st'))
    = accumulate (outcome <$> seq k j) (stats_val st) (loss_val st).
Proof.
  intros Hne. induction j as [|j IH]; intros st p k Hg Hp Hmod; [done|].
  destruct (eval_body_outcome st p k Hne Hg Hp Hmod)
    as (p' & Hp' & Hmod' & Hstep).
  cbn [eval_loop seq fmap list_fmap accumulate]. fold (@fmap list list_fmap).
  rewrite Hstep.
  destruct (batch_result net loss_func (drawn_at val_loader k)) as [[d l]|e];
    cbn [mbind result_bind]; [|done].
  by rewrite (IH _ p' (S k)).
Qed.

Lemma test_eval_accumulate :
  val_loader <> [] ->
  test_eval val_loader net loss_func
  = '(stats, loss) ← accumulate (outcome <$> seq 0 100) [] 0%Q;
    eval_return stats loss.
Proof.
  intros Hne.
  pose proof (eval_loop_accumulate 100 Hne (eval_init val_loader) 0 0
                eq_refl (Nat.le_0_l _) eq_refl) as H.
  change (stats_val (eval_init val_loader)) with (@nil Tensor2) in H.
  change (loss_val (eval_init val_loader)) with 0%Q in H.
  rewrite <- H. unfold test_eval.
  by destruct (eval_loop val_loader net loss_func 100 (eval_init val_loader)).
Qed.
End TestEvalClosedForm.

Lemma accumulate_raise (pre post : list (result (Tensor2 * Q))) (e : pyerr) :
  Forall (fun r => exists x, r = Ok x) pre ->
  forall stats loss, accumulate (pre ++ Raise e :: post) stats loss = Raise e.
Proof.
  induction 1 as [|r pre [[d l] ->] _ IH]; intros stats loss; [done|].
  simpl. apply IH.
Qed.

(** X7.  A collation error in the loop is fatal: when the batches of the
    iterations before [k] go through and the batch of iteration [k < 100]
    fails to collate, [test_eval] ends with that very exception.  Only
    exhaustion of the loader is caught and answered by a restart. *)
Theorem test_eval_error_propagates
    (val_loader : Loader) (net : Tensor3 -> Mask -> Tensor2)
    (loss_func : Tensor2 -> Tensor2 -> Q) (k : nat) (e : pyerr) :
  val_loader <> [] -> k < 100 ->
  (forall i, i < k ->
     exists r, batch_result net loss_func (drawn_at val_loader i) = Ok r) ->
  collate_feat (drawn_at val_loader k) = Raise e ->
  test_eval val_loader net loss_func = Raise e.
Proof.
  intros Hne Hk Hpre Hfail.
  rewrite test_eval_accumulate by done.
  replace 100 with (k + S (99 - k)) by lia.
  rewrite seq_app, fmap_app. cbn [seq fmap list_fmap]. rewrite Nat.add_0_l.
  unfold batch_result at 2. rewrite Hfail. cbn [mbind result_bind].
  rewrite accumulate_raise; [done|].
  apply Forall_fmap, Forall_forall. intros i Hi%elem_of_seq. simpl.
  apply Hpre. lia.
Qed.

Lemma test_eval_error_propagates_witness :
  test_eval [[ex_s 1 0%Q]; [ex_s 1 0%Q; ex_ragged]] (ex_net 0) MSELoss
  = Raise ValueError.
Proof.
  apply (test_eval_error_propagates _ _ _ 1).
  - discriminate.
  - lia.
  - intros i Hi. assert (i = 0) as -> by lia. eexists. vm_compute. reflexivity.
  - vm_compute. reflexivity.
Defined.

(** X8.  The evaluator never looks past the first 100 batches of a loader:
    whatever follows them has no influence on the outcome. *)
Theorem test_eval_first_100
    (val_loader extra : Loader) (net : Tensor3 -> Mask -> Tensor2)
    (loss_func : Tensor2 -> Tensor2 -> Q) :
  100 <= length val_loader ->
  test_eval (val_loader ++ extra) net loss_func
  = test_eval val_loader net loss_func.
Proof.
  intros Hlen.
  assert (val_loader <> []) as Hne by (intros ->; simpl in Hlen; lia).
  assert (val_loader ++ extra <> []) as Hne' by (by destruct val_loader).
  rewrite !test_eval_accumulate by done.
  assert ((fun k => batch_result net loss_func (drawn_at (val_loader ++ extra) k))
            <$> seq 0 100
          = (fun k => batch_result net loss_func (drawn_at val_loader k))
            <$> seq 0 100) as ->; [|done].
  apply list_fmap_ext. intros i k Hk. apply lookup_seq in Hk as [-> Hi].
  simpl. unfold drawn_at. rewrite length_app.
  rewrite !Nat.mod_small by lia. f_equal. apply app_nth1. lia.
Qed.

Lemma test_eval_first_100_witness :
  test_eval (replicate 100 [ex_s 1 0%Q] ++ [[ex_s 2 5%Q]]) (ex_net 0) MSELoss
  = test_eval (replicate 100 [ex_s 1 0%Q]) (ex_net 0) MSELoss.
Proof.
  apply test_eval_first_100. rewrite length_replicate. lia.
Defined.

(** ** Means over whole passes *)

(** What [test_eval] returns on the loader of [main]. *)
Lemma DataLoader1_test_eval
    (val_set : list Sample) (net : Tensor3 -> Mask -> Tensor2)
    (loss_func : Tensor2 -> Tensor2 -> Q) (C : nat) :
  val_set <> [] -> Forall (fits net C) val_set ->
  exists acc loss,
    test_eval (DataLoader1 val_set) net loss_func = Ok (acc, loss) /\
    shape0 acc = 1 /\ t_dim acc = C /\ rect2 acc /\
    (forall c, c < C ->
       (entry acc 0 c ==
        Qsum ((fun k => abs_error net val_set k c) <$> seq 0 100)
        / inject_Z 100)%Q).
Proof.
  intros Hne Hfit.
  set (loader := DataLoader1 val_set).
  assert (loader <> []) as Hlne by (subst loader; by destruct val_set).
  pose proof (DataLoader1_evaluable net loss_func C val_set Hfit) as Hsh.
  fold loader in Hsh.
  pose proof (evaluable_shape_evaluable _ _ _ 1 C Hsh) as Hev.
  destruct (eval_loop_100 loader net loss_func Hlne Hev) as [g Hrun].
  set (stats := (fun i => fst (item_at loader net loss_func i)) <$> seq 0 100)
    in *.
  set (ms := (fun m : list (list Q) => (fun r : list Q => Qabs <$> r) <$> m)
               <$> (t_rows <$> stats)).
  assert (Forall (mshape 1 C) ms) as Hms.
  { subst ms stats. rewrite <- !list_fmap_compose.
    apply Forall_fmap, Forall_forall. intros k _. simpl.
    apply mshape_fmap. by apply DataLoader1_item. }
  assert (ms <> []) as Hmsne.
  { intros E. apply (f_equal length) in E. subst ms stats.
    rewrite !length_fmap, length_seq in E. discriminate E. }
  assert (mshape 1 C (sum_axis0 ms)) as Hsum.
  { destruct C as [|C'].
    - destruct ms as [|m ms']; [done|]. unfold sum_axis0.
      inversion Hms as [|? ? Hm Hrest]; subst.
      clear -Hm Hrest. revert m Hm.
      induction Hrest as [|m' ms' Hm' _ IH]; intros m Hm; [done|].
      simpl. apply IH. by apply mat_add_shape.
    - by apply (sum_axis0_entry 1 (S C') ms 0 0); [| |lia|lia]. }
  eexists _, _. split.
  { unfold test_eval. rewrite Hrun. cbn [mbind result_bind stats_val loss_val].
    rewrite (np_array_uniform 1 C).
    - cbn [mbind result_bind]. reflexivity.
    - subst stats. intros E. apply (f_equal length) in E.
      rewrite length_fmap, length_seq in E. discriminate E.
    - subst stats. apply Forall_fmap, Forall_forall. intros k _.
      by destruct (item_at_shape loader net loss_func 1 C k Hlne Hsh). }
  unfold np_mean_axis0, np_abs. cbn [size3 data3 t_rows t_dim shape0].
  fold ms.
  pose proof (mshape_fmap
                (fun v => v / inject_Z (Z.of_nat (length stats)))%Q
                1 C _ Hsum) as [Hlen Hrows].
  split; [exact Hlen|]. split; [done|]. split; [exact Hrows|].
  intros c Hc. unfold entry. cbn [t_rows].
  rewrite (ment_fmap _ 1 C) by (done || lia).
  destruct (sum_axis0_entry 1 C ms 0 c Hmsne Hms) as [_ ->]; [lia | done |].
  assert ((fun m => ment m 0 c) <$> ms
          = (fun k => abs_error net val_set k c) <$> seq 0 100) as ->.
  { subst ms stats. rewrite <- !list_fmap_compose.
    apply list_fmap_ext. intros i k _. simpl.
    destruct (DataLoader1_item net loss_func C val_set k Hne Hfit)
      as [Hd Habs].
    rewrite (ment_fmap Qabs 1 C) by (done || lia).
    by apply Habs. }
  subst stats. rewrite length_fmap, length_seq. reflexivity.
Qed.

Lemma test_eval_returns
    (val_loader : Loader) (net : Tensor3 -> Mask -> Tensor2)
    (loss_func : Tensor2 -> Tensor2 -> Q) (B C : nat) :
  val_loader <> [] -> evaluable_shape val_loader net loss_func B C ->
  exists acc,
    test_eval val_loader net loss_func
    = Ok (acc,
          (Qsum ((fun k => snd (item_at val_loader net loss_func k)) <$> seq 0 100)
           / inject_Z 100)%Q).
Proof.
  intros Hne Hsh.
  pose proof (evaluable_shape_evaluable _ _ _ B C Hsh) as Hev.
  destruct (eval_loop_100 val_loader net loss_func Hne Hev) as [g Hrun].
  eexists. unfold test_eval. rewrite Hrun.
  cbn [mbind result_bind stats_val loss_val].
  rewrite (np_array_uniform B C).
  - cbn [mbind result_bind]. rewrite length_fmap, length_seq. reflexivity.
  - discriminate.
  - apply Forall_fmap, Forall_forall. intros k _.
    by destruct (item_at_shape val_loader net loss_func B C k Hne Hsh).
Qed.

Lemma Qsum_app (l1 l2 : list Q) : (Qsum (l1 ++ l2) == Qsum l1 + Qsum l2)%Q.
Proof.
  unfold Qsum at 1. rewrite fold_left_app, fold_Qplus_start. reflexivity.
Qed.

Lemma Qsum_nonneg (l : list Q) : Forall (fun x => 0 <= x)%Q l -> (0 <= Qsum l)%Q.
Proof.
  induction 1 as [|x l Hx _ IH]; [discriminate|].
  rewrite Qsum_cons. rewrite <- (Qplus_0_r 0). by apply Qplus_le_compat.
Qed.

(** A sum over [q] whole periods is [q] times the sum over one. *)
Lemma Qsum_periodic (f : nat -> Q) (n q : nat) :
  (forall k, f (k mod n) = f k) ->
  (Qsum (f <$> seq 0 (q * n)) == inject_Z (Z.of_nat q) * Qsum (f <$> seq 0 n))%Q.
Proof.
  intros Hper. induction q as [|q IH].
  - simpl. unfold Qsum. simpl. ring.
  - replace (S q * n) with (q * n + n) by lia.
    rewrite seq_app, fmap_app, Qsum_app, IH, Nat.add_0_l.
    assert (f <$> seq (q * n) n = f <$> seq 0 n) as ->.
    { rewrite <- (Nat.add_0_r (q * n)) at 1.
      rewrite <- fmap_add_seq, <- list_fmap_compose.
      apply list_fmap_ext. intros i k _. simpl.
      rewrite <- (Hper (q * n + k)), <- (Hper k).
      by rewrite Nat.add_comm, Nat.Div0.mod_add. }
    rewrite Nat2Z.inj_succ, <- Z.add_1_r, inject_Z_plus. ring.
Qed.

Lemma whole_passes_mean (S : Q) (n q : nat) :
  n * q = 100 ->
  (inject_Z (Z.of_nat q) * S / inject_Z 100 == S / inject_Z (Z.of_nat n))%Q.
Proof.
  intros Hq.
  replace 100%Z with (Z.of_nat (n * q)) by (by rewrite Hq).
  rewrite Nat2Z.inj_mul, inject_Z_mult.
  assert (~ inject_Z (Z.of_nat n) == 0)%Q
    by (unfold Qeq; simpl; destruct n; simpl in *; lia).
  assert (~ inject_Z (Z.of_nat q) == 0)%Q
    by (unfold Qeq; simpl; destruct q; simpl in *; lia).
  by field.
Qed.

(** X9.  When the size [N] of the validation set divides 100, every sample
    is evaluated equally often and the error returned on the loader of
    [main] is the plain mean over the validation set of
    [|target - prediction|], dimension by dimension. *)
Theorem test_eval_whole_passes_error
    (val_set : list Sample) (net : Tensor3 -> Mask -> Tensor2)
    (loss_func : Tensor2 -> Tensor2 -> Q) (C q : nat) :
  val_set <> [] -> Forall (fits net C) val_set ->
  length val_set * q = 100 ->
  exists acc loss,
    test_eval (DataLoader1 val_set) net loss_func = Ok (acc, loss) /\
    (forall c, c < C ->
       (entry acc 0 c ==
        Qsum ((fun i => abs_error net val_set i c) <$> seq 0 (length val_set))
        / inject_Z (Z.of_nat (length val_set)))%Q).
Proof.
  intros Hne Hfit Hq.
  destruct (DataLoader1_test_eval val_set net loss_func C Hne Hfit)
    as (acc & loss & Ht & _ & _ & _ & Hent).
  exists acc, loss. split; [done|]. intros c Hc. rewrite (Hent c Hc).
  replace 100 with (q * length val_set) by lia.
  rewrite (Qsum_periodic (fun k => abs_error net val_set k c)).
  - by apply whole_passes_mean.
  - intros k. unfold abs_error, sample_at. by rewrite Nat.Div0.mod_mod.
Qed.

Lemma test_eval_whole_passes_error_witness :
  exists acc loss,
    test_eval (DataLoader1 ex_val_pair) (ex_net 0) MSELoss = Ok (acc, loss) /\
    (entry acc 0 0 == 3 # 2)%Q.
Proof.
  destruct (test_eval_whole_passes_error ex_val_pair (ex_net 0) MSELoss 1 50)
    as (acc & loss & Ht & Hent).
  - discriminate.
  - unfold ex_val_pair.
    repeat apply Forall_cons_2; try apply Forall_nil_2.
    all: split; [reflexivity|]; split; [|reflexivity].
    all: split; [reflexivity|]; repeat constructor.
  - reflexivity.
  - exists acc, loss. split; [exact Ht|].
    rewrite (Hent 0 (Nat.lt_0_succ 0)). vm_compute. reflexivity.
Defined.

(** X10.  When the number [n] of batches of the loader divides 100, the
    loss returned by [test_eval] is the plain mean of the losses of the
    [n] batches. *)
Theorem test_eval_whole_passes_loss
    (val_loader : Loader) (net : Tensor3 -> Mask -> Tensor2)
    (loss_func : Tensor2 -> Tensor2 -> Q) (B C q : nat) :
  val_loader <> [] -> evaluable_shape val_loader net loss_func B C ->
  length val_loader * q = 100 ->
  exists acc loss,
    test_eval val_loader net loss_func = Ok (acc, loss) /\
    (loss ==
     Qsum ((fun i => snd (item_at val_loader net loss_func i))
             <$> seq 0 (length val_loader))
     / inject_Z (Z.of_nat (length val_loader)))%Q.
Proof.
  intros Hne Hsh Hq.
  destruct (test_eval_returns val_loader net loss_func B C Hne Hsh) as [acc Ht].
  eexists _, _. split; [exact Ht|].
  replace 100 with (q * length val_loader) by lia.
  rewrite (Qsum_periodic (fun k => snd (item_at val_loader net loss_func k))).
  - by apply whole_passes_mean.
  - intros k. unfold item_at, drawn_at. by rewrite Nat.Div0.mod_mod.
Qed.

Lemma test_eval_whole_passes_loss_witness :
  exists acc loss,
    test_eval (DataLoader1 ex_val_pair) (ex_net 0) MSELoss = Ok (acc, loss) /\
    (loss == 5 # 2)%Q.
Proof.
  destruct (test_eval_whole_passes_loss
              (DataLoader1 ex_val_pair) (ex_net 0) MSELoss 1 1 50)
    as (acc & loss & Ht & Hl).
  - discriminate.
  - unfold evaluable_shape, DataLoader1, ex_val_pair. cbn [fmap list_fmap].
    repeat apply Forall_cons_2; try apply Forall_nil_2.
    all: eexists _, _; split; [vm_compute; reflexivity|].
    all: split; reflexivity.
  - reflexivity.
  - exists acc, loss. split; [exact Ht|].
    rewrite Hl. vm_compute. reflexivity.
Defined.

(** X11.  On the loader of [main] every entry of the returned error is
    non-negative, and so is its sum, the score that [main] compares with
    [min_acc]. *)
Theorem test_eval_error_nonneg
    (val_set : list Sample) (net : Tensor3 -> Mask -> Tensor2)
    (loss_func : Tensor2 -> Tensor2 -> Q) (C : nat) :
  val_set <> [] -> Forall (fits net C) val_set ->
  exists acc loss,
    test_eval (DataLoader1 val_set) net loss_func = Ok (acc, loss) /\
    (forall c, c < C -> (0 <= entry acc 0 c)%Q) /\
    (0 <= np_sum acc)%Q.
Proof.
  intros Hne Hfit.
  destruct (DataLoader1_test_eval val_set net loss_func C Hne Hfit)
    as (acc & loss & Ht & Hs & Hd & Hr & Hent).
  exists acc, loss. split; [done|].
  assert (forall c, c < C -> (0 <= entry acc 0 c)%Q) as Hpos.
  { intros c Hc. rewrite (Hent c Hc).
    apply Qle_shift_div_l; [reflexivity|]. rewrite Qmult_0_l.
    apply Qsum_nonneg, Forall_fmap, Forall_forall. intros k _. simpl.
    unfold abs_error. destruct (sample_at val_set k); [|discriminate].
    apply Qabs_nonneg. }
  split; [done|].
  unfold np_sum. unfold shape0 in Hs. unfold rect2 in Hr.
  destruct (t_rows acc) as [|r [|? ?]] eqn:Hrows; try discriminate Hs.
  simpl. rewrite app_nil_r.
  inversion Hr as [|? ? Hlen _]; subst.
  apply Qsum_nonneg, Forall_lookup_2. intros c x Hx.
  assert (c < t_dim acc) as Hc by (rewrite <- Hlen; by eapply lookup_lt_Some).
  pose proof (Hpos c Hc) as Hp. unfold entry in Hp. rewrite Hrows in Hp.
  by rewrite (ment_lookup [r] 0 c r x) in Hp.
Qed.

Lemma test_eval_error_nonneg_witness :
  exists acc loss,
    test_eval (DataLoader1 ex_val_set) (ex_net 0) MSELoss = Ok (acc, loss) /\
    (0 <= np_sum acc)%Q.
Proof.
  destruct (test_eval_error_nonneg ex_val_set (ex_net 0) MSELoss 1)
    as (acc & loss & Ht & _ & Hs).
  - discriminate.
  - unfold ex_val_set.
    repeat apply Forall_cons_2; try apply Forall_nil_2.
    all: split; [reflexivity|]; split; [|reflexivity].
    all: split; [reflexivity|]; repeat constructor.
  - exists acc, loss. split; [exact Ht | exact Hs].
Defined.

(** * Further properties of the epoch loop *)

Section CheckpointFacts.
Context {Model : Type}.
Variable forward : Model -> Tensor3 -> Mask -> Tensor2.
Variable loss_func : Tensor2 -> Tensor2 -> Q.
Variable train_phase : Model -> Model.
Variable val_loader : Loader.
Variable net0 : Model.

Local Abbreviation run := (main_loop forward loss_func train_phase val_loader).
Local Abbreviation params := (net_after train_phase net0).
Local Abbreviation score :=
  (epoch_score forward loss_func train_phase val_loader net0).
Local Abbreviation thr :=
  (threshold forward loss_func train_phase val_loader net0).
Local Abbreviation better :=
  (improves forward loss_func train_phase val_loader net0).
Local Abbreviation saved :=
  (saved_upto forward loss_func train_phase val_loader net0).
Local Abbreviation state :=
  (state_after forward loss_func train_phase val_loader net0).

Lemma threshold_step (n : nat) :
  thr (S n) = if better n then score n else thr n.
Proof.
  rewrite threshold_S. symmetry. apply min_acc_update.
Qed.

Lemma threshold_mono (e e' : nat) : e <= e' -> (thr e' <= thr e)%Q.
Proof.
  induction 1 as [|e' _ IH]; [apply Qle_refl|].
  rewrite threshold_S. eapply Qle_trans; [apply Q.le_min_l | exact IH].
Qed.

Lemma threshold_le_init (n : nat) : (thr n <= 1000000)%Q.
Proof. apply (threshold_mono 0 n). lia. Qed.

Lemma threshold_le_score (e n : nat) : e < n -> (thr n <= score e)%Q.
Proof.
  intros He. eapply Qle_trans; [apply (threshold_mono (S e) n); lia|].
  rewrite threshold_S. apply Q.le_min_r.
Qed.

Lemma better_iff (e : nat) : better e = true <-> (score e < thr e)%Q.
Proof. apply Qlt_bool_iff. Qed.

Lemma better_false_iff (e : nat) : better e = false <-> (thr e <= score e)%Q.
Proof.
  rewrite <- not_true_iff_false, better_iff. split.
  - apply Qnot_lt_le.
  - intros H Hlt. by apply Qlt_not_le in Hlt.
Qed.

(** The last epoch that passed the test, the ones after it, and the
    threshold they leave. *)
Lemma last_saved (n e : nat) :
  last (saved n) = Some e ->
  e < n /\ better e = true /\ thr n = score e.
Proof.
  induction n as [|n IH]; [discriminate|].
  rewrite saved_upto_S, threshold_step.
  destruct (better n) eqn:Hb.
  - rewrite last_snoc. intros [= <-]. auto.
  - rewrite app_nil_r. intros H. destruct (IH H) as (? & ? & ?). auto.
Qed.

Lemma no_saved (n : nat) :
  saved n = [] <-> forall e, e < n -> (1000000 <= score e)%Q.
Proof.
  induction n as [|n IH].
  - split; [intros _ e He; lia | done].
  - rewrite saved_upto_S. split.
    + intros H. apply app_eq_nil in H as [Hn Hb].
      destruct (better n) eqn:Hbn; [discriminate Hb|].
      assert (thr n = 1000000%Q) as Hthr.
      { clear -Hn. induction n as [|n IHn]; [done|].
        rewrite saved_upto_S in Hn. apply app_eq_nil in Hn as [Hn Hb].
        rewrite threshold_step.
        destruct (better n); [discriminate Hb | by apply IHn]. }
      intros e He. destruct (decide (e = n)) as [->|Hne].
      * apply better_false_iff in Hbn. by rewrite Hthr in Hbn.
      * apply IH; [done | lia].
    + intros H.
      assert (saved n = []) as Hn by (apply IH; intros e He; apply H; lia).
      rewrite Hn. simpl.
      assert (better n = false) as ->; [|done].
      apply better_false_iff.
      eapply Qle_trans; [apply threshold_le_init | apply H; lia].
Qed.

(** An exception of the evaluation of epoch [k] ends the run of [k + 1]
    epochs, and a run that has raised stays so when it is made longer. *)
Lemma main_loop_S_raise (k : nat) (err : pyerr) :
  evaluations_return forward loss_func train_phase val_loader net0 k ->
  test_eval val_loader (forward (params k)) loss_func = Raise err ->
  run (S k) net0 = Raise err.
Proof.
  intros Hret Hfail.
  rewrite main_loop_S, (main_loop_state _ _ _ _ _ k Hret).
  cbn [mbind result_bind]. unfold main_epoch. cbn [net_params state_after].
  change (train_phase (Nat.iter k train_phase net0)) with (params k).
  by rewrite Hfail.
Qed.

Lemma main_loop_raise_mono (k n : nat) (err : pyerr) :
  run k net0 = Raise err -> k <= n -> run n net0 = Raise err.
Proof.
  intros Hk. induction 1 as [|n _ IH]; [done|].
  by rewrite main_loop_S, IH.
Qed.
End CheckpointFacts.

(** X12.  Checkpointing never rolls the model back: after [n] epochs the
    parameters in training are those produced by [n] training passes in a
    row from the initial ones, whichever epochs were saved. *)
Theorem main_training_continues
    {Model : Type} (forward : Model -> Tensor3 -> Mask -> Tensor2)
    (loss_func : Tensor2 -> Tensor2 -> Q) (train_phase : Model -> Model)
    (val_loader : Loader) (net0 : Model) (n : nat) (st : TrainState Model) :
  main_loop forward loss_func train_phase val_loader n net0 = Ok st ->
  net_params st = Nat.iter n train_phase net0.
Proof.
  intros Hrun. by apply main_loop_returns in Hrun as [_ ->].
Qed.

Lemma main_training_continues_witness :
  exists st,
    demo_main [5%Q; 6%Q; (49 # 10)%Q] 3 = Ok st /\ net_params st = 3.
Proof.
  eassert (demo_main [5%Q; 6%Q; (49 # 10)%Q] 3 = Ok _) as Hrun
    by (vm_compute; reflexivity).
  eexists. split; [exact Hrun|].
  exact (main_training_continues _ _ _ _ _ _ _ Hrun).
Defined.

(** X13.  Every checkpoint written is strictly better than all checkpoints
    written before it: of two saved epochs the later one has the strictly
    lower score. *)
Theorem main_saved_scores_decrease
    {Model : Type} (forward : Model -> Tensor3 -> Mask -> Tensor2)
    (loss_func : Tensor2 -> Tensor2 -> Q) (train_phase : Model -> Model)
    (val_loader : Loader) (net0 : Model) (n : nat) (st : TrainState Model)
    (e e' : nat) :
  let score := epoch_score forward loss_func train_phase val_loader net0 in
  main_loop forward loss_func train_phase val_loader n net0 = Ok st ->
  e ∈ saved_epochs st -> e' ∈ saved_epochs st -> e < e' ->
  (score e' < score e)%Q.
Proof.
  intros score Hrun He He' Hlt.
  apply main_loop_returns in Hrun as [_ ->]. cbn [saved_epochs state_after] in *.
  apply saved_upto_elem in He as [_ He], He' as [_ He'].
  eapply Qlt_le_trans; [exact He'|].
  eapply Qle_trans; [apply (threshold_mono _ _ _ _ _ (S e) e'); lia|].
  rewrite threshold_step.
  apply (better_iff forward loss_func train_phase val_loader net0) in He.
  rewrite He. apply Qle_refl.
Qed.

Lemma main_saved_scores_decrease_witness :
  (demo_score [5%Q; 6%Q; (49 # 10)%Q] 2 < demo_score [5%Q; 6%Q; (49 # 10)%Q] 0)%Q.
Proof.
  eassert (demo_main [5%Q; 6%Q; (49 # 10)%Q] 3 = Ok _) as Hrun
    by (vm_compute; reflexivity).
  refine (main_saved_scores_decrease _ _ _ _ _ _ _ 0 2 Hrun _ _ _).
  - apply list_elem_of_In. simpl. auto.
  - apply list_elem_of_In. simpl. auto.
  - lia.
Defined.

(** X14.  The checkpoint file at the end of a run: there is none exactly
    when every score was 1000000 or more; otherwise it holds the
    parameters of an epoch whose score is below 1000000, is the lowest of
    the run, and is reached by no earlier epoch. *)
Theorem main_final_checkpoint
    {Model : Type} (forward : Model -> Tensor3 -> Mask -> Tensor2)
    (loss_func : Tensor2 -> Tensor2 -> Q) (train_phase : Model -> Model)
    (val_loader : Loader) (net0 : Model) (n : nat) (st : TrainState Model) :
  let score := epoch_score forward loss_func train_phase val_loader net0 in
  main_loop forward loss_func train_phase val_loader n net0 = Ok st ->
  (weights_file st = None <-> forall e, e < n -> (1000000 <= score e)%Q) /\
  (forall m, weights_file st = Some m ->
     exists e,
       e < n /\ m = net_after train_phase net0 e /\
       min_acc st = score e /\
       (score e < 1000000)%Q /\
       (forall e', e' < n -> (score e <= score e')%Q) /\
       (forall e', e' < e -> (score e < score e')%Q)).
Proof.
  intros score Hrun. subst score.
  apply main_loop_returns in Hrun as [_ ->].
  cbn [weights_file min_acc state_after]. split.
  - rewrite <- no_saved, fmap_None. split.
    + intros H. by apply last_None in H.
    + by intros ->.
  - intros m Hm. apply fmap_Some in Hm as (e & Hlast & ->).
    destruct (last_saved _ _ _ _ _ _ _ Hlast) as (He & Hb & Hthr).
    apply better_iff in Hb.
    exists e. split; [done|]. split; [done|]. split; [done|].
    split; [|split].
    + eapply Qlt_le_trans; [exact Hb | apply threshold_le_init].
    + intros e' He'. rewrite <- Hthr. by apply threshold_le_score.
    + intros e' He'. eapply Qlt_le_trans; [exact Hb|].
      by apply threshold_le_score.
Qed.

Lemma main_final_checkpoint_witness :
  exists st e,
    demo_main [5%Q; 6%Q; (49 # 10)%Q] 3 = Ok st /\
    e < 3 /\ weights_file st = Some (net_after S 0 e) /\
    min_acc st = demo_score [5%Q; 6%Q; (49 # 10)%Q] e.
Proof.
  eassert (demo_main [5%Q; 6%Q; (49 # 10)%Q] 3 = Ok _) as Hrun
    by (vm_compute; reflexivity).
  destruct (main_final_checkpoint _ _ _ _ _ _ _ Hrun) as [_ Hsome].
  destruct (Hsome 3 eq_refl) as (e & He & Hm & Hmin & _).
  eexists _, e. split; [exact Hrun|]. split; [exact He|].
  split; [|exact Hmin].
  cbn [weights_file]. f_equal. exact Hm.
Defined.

(** X15.  An exception in the evaluation of an epoch is fatal for the run:
    when the evaluations of the epochs before [k] return and that of epoch
    [k] raises, every run of more than [k] epochs ends with that
    exception. *)
Theorem main_evaluation_error_fatal
    {Model : Type} (forward : Model -> Tensor3 -> Mask -> Tensor2)
    (loss_func : Tensor2 -> Tensor2 -> Q) (train_phase : Model -> Model)
    (val_loader : Loader) (net0 : Model) (k n : nat) (err : pyerr) :
  evaluations_return forward loss_func train_phase val_loader net0 k ->
  test_eval val_loader (forward (net_after train_phase net0 k)) loss_func
    = Raise err ->
  k < n ->
  main_loop forward loss_func train_phase val_loader n net0 = Raise err.
Proof.
  intros Hret Hfail Hkn.
  apply (main_loop_raise_mono _ _ _ _ _ (S k)); [|lia].
  by apply main_loop_S_raise.
Qed.

Lemma main_evaluation_error_fatal_witness :
  main_loop (demo_forward [5%Q]) MSELoss S [[ex_s 1 0%Q; ex_ragged]] 2 0
  = Raise ValueError.
Proof.
  apply (main_evaluation_error_fatal _ _ _ _ _ 0).
  - intros e He. lia.
  - vm_compute. reflexivity.
  - lia.
Defined.

(** X16.  With a validation loader that has no batch, every run of at
    least one epoch ends with [StopIteration] in its first evaluation,
    after the first training pass and before any checkpoint. *)
Theorem main_empty_validation
    {Model : Type} (forward : Model -> Tensor3 -> Mask -> Tensor2)
    (loss_func : Tensor2 -> Tensor2 -> Q) (train_phase : Model -> Model)
    (net0 : Model) (n : nat) :
  0 < n ->
  main_loop forward loss_func train_phase (DataLoader1 []) n net0
  = Raise StopIteration.
Proof.
  intros Hn.
  apply (main_loop_raise_mono _ _ _ _ _ 1); [|lia].
  apply main_loop_S_raise; [|reflexivity].
  intros e He. lia.
Qed.

Lemma main_empty_validation_witness :
  main_loop (demo_forward [5%Q]) MSELoss S (DataLoader1 []) 2 0
  = Raise StopIteration.
Proof.
  apply main_empty_validation. lia.
Defined.

(** * The training pass *)

Lemma train_pass_state {Model : Type}
    (update : Model -> Tensor3 -> Mask -> Tensor2 -> Model) (drawn : Loader) :
  Forall (fun d => exists r, collate_feat d = Ok r) drawn ->
  forall st : TrainLoop Model,
  exists st',
    train_pass update drawn st = Ok st' /\
    tr_count st' = tr_count st + length drawn /\
    tr_input_eg st' =
      match tr_input_eg st with
      | Some eg => Some eg
      | None => first_features drawn
      end.
Proof.
  induction 1 as [|d drawn [[b pad_mask] Hd] _ IH]; intros st.
  - exists st. split; [done|]. split; [simpl; lia|].
    by destruct (tr_input_eg st).
  - destruct (IH (train_body update st (b, pad_mask))) as (st' & Hrun & Hc & Heg).
    exists st'. cbn [train_pass]. rewrite Hd. cbn [mbind result_bind].
    split; [exact Hrun|]. split.
    + rewrite Hc. cbn [train_body tr_count length]. lia.
    + rewrite Heg. cbn [train_body tr_input_eg first_features]. rewrite Hd.
      by destruct (tr_input_eg st).
Qed.

(** X17.  Over a training pass whose batches all collate, the step counter
    grows by the number of batches, and the example input is set once
    only: an example that is already there is kept, otherwise it becomes
    the padded features of the first batch of the pass (and stays absent
    when the pass has no batch). *)
Theorem train_pass_count_and_example {Model : Type}
    (update : Model -> Tensor3 -> Mask -> Tensor2 -> Model)
    (drawn : Loader) (st : TrainLoop Model) :
  Forall (fun d => exists r, collate_feat d = Ok r) drawn ->
  exists st',
    train_pass update drawn st = Ok st' /\
    tr_count st' = tr_count st + length drawn /\
    (forall eg, tr_input_eg st = Some eg -> tr_input_eg st' = Some eg) /\
    (tr_input_eg st = None -> tr_input_eg st' = first_features drawn).
Proof.
  intros Hd. destruct (train_pass_state update drawn Hd st)
    as (st' & Hrun & Hc & Heg).
  exists st'. split; [done|]. split; [done|]. split.
  - intros eg E. by rewrite Heg, E.
  - intros E. by rewrite Heg, E.
Qed.

Lemma train_pass_count_and_example_witness :
  exists st',
    train_pass (fun (m : nat) _ _ _ => S m) (DataLoader1 ex_val_set)
               {| tr_net := 0; tr_count := 7; tr_input_eg := None |} = Ok st' /\
    tr_count st' = 10.
Proof.
  destruct (train_pass_count_and_example
              (fun (m : nat) _ _ _ => S m) (DataLoader1 ex_val_set)
              {| tr_net := 0; tr_count := 7; tr_input_eg := None |})
    as (st' & Hrun & Hc & _).
  - unfold DataLoader1, ex_val_set. cbn [fmap list_fmap].
    repeat apply Forall_cons_2; try apply Forall_nil_2.
    all: eexists; vm_compute; reflexivity.
  - exists st'. split; [exact Hrun | exact Hc].
Defined.

(** * Batches of one sample and returned batches *)

(** X18.  A batch of one sample cannot fail to collate and is never
    padded, whatever the length of the sample (0 included): the padded
    features hold the rows of the sample one per step, the two vectors make
    one row each, and the mask is one row of [False]. *)
Theorem collate_feat_single_sample (s : Sample) :
  collate_feat [s] =
    Ok ({| b_features :=
             {| data3 := (fun row => [row]) <$> t_rows (features s);
                size3 := (seq_len s, 1, t_dim (features s)) |};
           b_true_correction :=
             {| t_rows := [true_correction s];
                t_dim := length (true_correction s) |};
           b_guess := {| t_rows := [guess s]; t_dim := length (guess s) |} |},
        [replicate (seq_len s) false]).
Proof.
  unfold collate_feat, pad_sequence, stack.
  cbn [sorted_desc foldr insert_desc fmap list_fmap forallb length max_len].
  rewrite !Nat.eqb_refl, Nat.max_0_r. cbn [andb mbind result_bind size3].
  change (shape0 (features s)) with (seq_len s).
  assert (Forall (fun f => shape0 f <= seq_len s) [features s]) as Hle
    by (repeat constructor).
  pose proof (pad_mask_rows (seq_len s) [features s] Hle) as Hm.
  cbn [length fmap list_fmap] in Hm.
  change (shape0 (features s)) with (seq_len s) in Hm.
  rewrite Hm, mask_row_full. do 4 f_equal.
  transitivity ((fun row : list Q => [row]) <$>
                ((fun l => nth l (t_rows (features s))
                               (zero_row (t_dim (features s))))
                   <$> seq 0 (length (t_rows (features s))))).
  - by rewrite <- list_fmap_compose.
  - by rewrite fmap_nth_seq.
Qed.

Lemma pad_sequence_Ok (seqs : list Tensor2) (t : Tensor3) :
  pad_sequence seqs = Ok t ->
  exists d, t = {| data3 := padded d (max_len seqs) seqs;
                   size3 := (max_len seqs, length seqs, d) |}.
Proof.
  unfold pad_sequence. destruct seqs as [|s0 seqs]; [discriminate|].
  destruct (forallb _ _); [|discriminate].
  intros [= <-]. by eexists.
Qed.

Lemma stack_Ok (vs : list (list Q)) (t : Tensor2) :
  stack vs = Ok t -> t_rows t = vs.
Proof.
  unfold stack. destruct vs as [|v0 vs]; [by intros [= <-]|].
  destruct (forallb _ _); [|discriminate]. by intros [= <-].
Qed.

(** X19.  Whenever [collate_feat] returns, the list was not empty and the
    batch has one entry per sample everywhere: [N] mask rows, [N] rows of
    [true_correction] and of [guess], and [N] as the middle dimension of
    the padded features, whose first dimension is the largest length. *)
Theorem collate_feat_returns (batch : list Sample) (b : Batch) (mask : Mask) :
  collate_feat batch = Ok (b, mask) ->
  batch <> [] /\
  length mask = length batch /\
  shape0 (b_true_correction b) = length batch /\
  shape0 (b_guess b) = length batch /\
  exists D, size3 (b_features b)
            = (max_len (features <$> batch), length batch, D).
Proof.
  intros H.
  assert (batch <> []) as Hne by (intros ->; discriminate H).
  unfold collate_feat in H.
  pose proof (sorted_desc_length seq_len batch) as Hlen.
  assert (max_len (features <$> sorted_desc seq_len batch)
          = max_len (features <$> batch)) as Hmax
    by apply max_len_perm, fmap_Permutation, sorted_desc_perm.
  destruct (pad_sequence _) as [fp|] eqn:Hp; [|discriminate H].
  apply pad_sequence_Ok in Hp as [d ->].
  cbn [mbind result_bind size3] in H.
  destruct (stack (true_correction <$> _)) as [c|] eqn:Hc; [|discriminate H].
  cbn [mbind result_bind] in H.
  destruct (stack (guess <$> _)) as [g|] eqn:Hg; [|discriminate H].
  cbn [mbind result_bind] in H.
  apply stack_Ok in Hc, Hg.
  rewrite pad_mask_rows in H
    by (apply Forall_forall; intros f Hf; by apply max_len_ge).
  injection H as <- <-.
  split; [done|].
  cbn [b_features b_true_correction b_guess size3]. unfold shape0.
  rewrite Hc, Hg, !length_fmap, Hlen, Hmax.
  repeat split. by exists d.
Qed.

Lemma collate_feat_returns_witness :
  exists b mask,
    collate_feat ex_batch = Ok (b, mask) /\
    length mask = 4 /\ shape0 (b_guess b) = 4.
Proof.
  eassert (collate_feat ex_batch = Ok (_, _)) as Hc by (vm_compute; reflexivity).
  destruct (collate_feat_returns _ _ _ Hc) as (_ & Hm & _ & Hg & _).
  eexists _, _. split; [exact Hc|]. split; [exact Hm | exact Hg].
Defined.
